(** * Stock market analyzer: cleaning, indicators, signals and scoring

    A shallow embedding of [StockAnalyzer] (src/stock_analyzer.py):
    [clean_and_preprocess_data], [calculate_technical_indicators],
    [analyze_trends] and the private signal helpers, then
    [fetch_stock_data] over a retrieval service taken as a parameter, the
    executive summary and the sector section of [generate_report], and the
    sequence of steps of src/example_usage.py.

    Numbers.  The program computes on NumPy doubles.  They are modelled by
    [num]: an exact rational, plus or minus infinity, or NaN.  Arithmetic on
    finite values is exact (binary64 rounding and the sign of zero are not
    modelled); the special values follow IEEE 754, which is what decides
    every comparison with a missing value and every division by zero in the
    program.  The square root used by the rolling standard deviation leaves
    the rationals and is a parameter of the indicator engine.

    pandas.  The column operations the program calls ([fillna], [shift],
    [diff], [pct_change], [where], [rolling(...).mean/std], [ewm(...).mean],
    [.loc[mask, col] = ...], [.iloc[-1]]) are modelled on lists, one
    definition per operation, with the defaults the program relies on. *)

From Stdlib Require Import QArith Qabs Qfield Lqa ZArith Lia.
From stdpp Require Import gmap strings list.

(** ** Numbers *)

Inductive num : Type :=
| Fin (q : Q)
| PInf
| NInf
| NaN.

Definition Qltb (a b : Q) : bool := negb (Qle_bool b a).

Module Num.

Definition of_Z (z : Z) : num := Fin (inject_Z z).

(** [x != x] *)
Definition isna (x : num) : bool :=
  match x with NaN => true | _ => false end.

Definition isfinite (x : num) : bool :=
  match x with Fin _ => true | _ => false end.

Definition neg (x : num) : num :=
  match x with
  | Fin q => Fin (Qred (- q))
  | PInf => NInf
  | NInf => PInf
  | NaN => NaN
  end.

Definition add (x y : num) : num :=
  match x, y with
  | NaN, _ | _, NaN => NaN
  | Fin a, Fin b => Fin (Qred (a + b))
  | PInf, NInf | NInf, PInf => NaN
  | PInf, _ | _, PInf => PInf
  | NInf, _ | _, NInf => NInf
  end.

Definition sub (x y : num) : num := add x (neg y).

(** Sign of a finite value: -1, 0 or 1. *)
Definition Qsgn (q : Q) : Z := Z.sgn (Qnum q).

Definition signed_inf (s : Z) : num :=
  match s with
  | Z0 => NaN
  | Zpos _ => PInf
  | Zneg _ => NInf
  end.

Definition sgn (x : num) : Z :=
  match x with
  | Fin q => Qsgn q
  | PInf => 1%Z
  | NInf => (-1)%Z
  | NaN => 0%Z
  end.

Definition mul (x y : num) : num :=
  match x, y with
  | NaN, _ | _, NaN => NaN
  | Fin a, Fin b => Fin (Qred (a * b))
  | _, _ => signed_inf (sgn x * sgn y)%Z
  end.

(** Division: a finite value over zero is an infinity of the sign of the
    numerator, [0 / 0] is NaN, a finite value over an infinity is zero. *)
Definition div (x y : num) : num :=
  match x, y with
  | NaN, _ | _, NaN => NaN
  | Fin a, Fin b =>
      if Qeq_bool b 0 then signed_inf (Qsgn a) else Fin (Qred (a / b))
  | Fin _, _ => Fin 0
  | _, Fin b => if Qeq_bool b 0 then x else signed_inf (sgn x * Qsgn b)%Z
  | _, _ => NaN
  end.

Definition abs (x : num) : num :=
  match x with
  | Fin q => Fin (Qabs q)
  | PInf | NInf => PInf
  | NaN => NaN
  end.

(** [x < y]; false as soon as one side is NaN. *)
Definition lt (x y : num) : bool :=
  match x, y with
  | NaN, _ | _, NaN => false
  | Fin a, Fin b => Qltb a b
  | NInf, NInf | PInf, _ => false
  | NInf, _ => true
  | Fin _, PInf => true
  | Fin _, NInf => false
  end.

(** [x > y] *)
Definition gt (x y : num) : bool := lt y x.

End Num.

Declare Scope num_scope.
Delimit Scope num_scope with num.
Bind Scope num_scope with num.
Infix "+" := Num.add : num_scope.
Infix "-" := Num.sub : num_scope.
Infix "*" := Num.mul : num_scope.
Infix "/" := Num.div : num_scope.
Notation "- x" := (Num.neg x) : num_scope.
Infix ">?" := Num.gt : num_scope.
Infix "<?" := Num.lt : num_scope.

(** ** Signal Evaluator (src/stock_analyzer.py, lines 197-300) *)

(** The latest row of an indicator frame, [data.iloc[-1]]. *)
Record Row : Type := mkRow {
  r_Open : num;
  r_High : num;
  r_Low : num;
  r_Close : num;
  r_Volume : num;
  r_MA_50 : num;
  r_MA_200 : num;
  r_RSI : num;
  r_MACD : num;
  r_MACD_Signal : num;
  r_MACD_Histogram : num;
  r_BB_Middle : num;
  r_BB_Upper : num;
  r_BB_Lower : num;
  r_Volatility : num;
  r_Price_Change_Pct : num
}.

(** Python's [needle in hay] on strings. *)
Fixpoint str_in (needle hay : string) : bool :=
  String.prefix needle hay ||
  match hay with
  | EmptyString => false
  | String _ rest => str_in needle rest
  end.

(** [a > b > c] is [a > b and b > c]. *)
Definition _get_ma_signal (data : Row) : string :=
  let close := r_Close data in
  let ma50 := r_MA_50 data in
  let ma200 := r_MA_200 data in
  if (close >? ma50)%num && (ma50 >? ma200)%num then "Strong Bullish"
  else if (close >? ma50)%num then "Bullish"
  else if (close <? ma50)%num && (ma50 <? ma200)%num then "Strong Bearish"
  else "Bearish".

Definition _get_rsi_signal (rsi : num) : string :=
  if (rsi >? Num.of_Z 70)%num then "Overbought"
  else if (rsi <? Num.of_Z 30)%num then "Oversold"
  else "Neutral".

Definition _get_macd_signal (data : Row) : string :=
  if (r_MACD data >? r_MACD_Signal data)%num then "Bullish" else "Bearish".

Definition _get_bb_signal (data : Row) : string :=
  let close := r_Close data in
  if (close >? r_BB_Upper data)%num
  then "Above upper band - potentially overbought"
  else if (close <? r_BB_Lower data)%num
  then "Below lower band - potentially oversold"
  else "Within normal range".

Definition _calculate_composite_score
    (ma_signal rsi_signal macd_signal : string) : Z :=
  let score := 0%Z in
  (* MA score *)
  let score :=
    if str_in "Bullish" ma_signal
    then (score + (if str_in "Strong" ma_signal then 2 else 1))%Z
    else if str_in "Bearish" ma_signal
    then (score - (if str_in "Strong" ma_signal then 2 else 1))%Z
    else score in
  (* RSI score *)
  let score :=
    if String.eqb rsi_signal "Overbought" then (score - 1)%Z
    else if String.eqb rsi_signal "Oversold" then (score + 1)%Z
    else score in
  (* MACD score *)
  let score :=
    (score + (if String.eqb macd_signal "Bullish" then 1 else -1))%Z in
  Z.max (-3) (Z.min 3 score).

(** The dict literal of [_get_recommendation] and [dict.get]. *)
Definition recommendations : list (Z * string) :=
  [ (3, "Strong Buy"); (2, "Strong Buy");
    (1, "Buy"); (0, "Hold");
    (-1, "Sell"); (-2, "Strong Sell"); (-3, "Strong Sell") ]%Z.

Fixpoint dict_get {V : Type} (d : list (Z * V)) (k : Z) (dflt : V) : V :=
  match d with
  | [] => dflt
  | (k', v) :: d' => if Z.eqb k' k then v else dict_get d' k dflt
  end.

Definition _get_recommendation (score : Z) : string :=
  dict_get recommendations score "Hold".

(** The dict returned by [_analyze_single_stock], with the two entries
    [analyze_trends] adds to it. *)
Record Analysis : Type := mkAnalysis {
  ma_signal : string;
  rsi_value : num;
  rsi_signal : string;
  macd_signal : string;
  bb_signal : string;
  score : Z;
  recommendation : string;
  current_price : option num;
  volatility : option num
}.

Definition _analyze_single_stock (latest_data : Row) : Analysis :=
  let ma := _get_ma_signal latest_data in
  let rsi_v := r_RSI latest_data in
  let rsi := _get_rsi_signal rsi_v in
  let macd := _get_macd_signal latest_data in
  let bb := _get_bb_signal latest_data in
  let sc := _calculate_composite_score ma rsi macd in
  let rec := _get_recommendation sc in
  {| ma_signal := ma; rsi_value := rsi_v; rsi_signal := rsi;
     macd_signal := macd; bb_signal := bb; score := sc;
     recommendation := rec; current_price := None; volatility := None |}.

(** ** Column operations of pandas, on lists *)

Module pd.

(** [fillna(method='ffill')] on one column: a missing value takes the
    nearest earlier value that is present. *)
Fixpoint ffill_from (prev : num) (xs : list num) : list num :=
  match xs with
  | [] => []
  | x :: xs' =>
      let y := if Num.isna x then prev else x in
      y :: ffill_from y xs'
  end.

Definition ffill (xs : list num) : list num := ffill_from NaN xs.

(** [fillna(method='bfill')]: a missing value takes the nearest later
    value that is present. *)
Fixpoint bfill (xs : list num) : list num :=
  match xs with
  | [] => []
  | x :: xs' =>
      let r := bfill xs' in
      (if Num.isna x then hd NaN r else x) :: r
  end.

(** [shift(1)]: every value moves one index down, index 0 is missing. *)
Definition shift (xs : list num) : list num :=
  take (length xs) (NaN :: xs).

(** [diff()]: [x - x.shift(1)]. *)
Definition diff (xs : list num) : list num :=
  zip_with Num.sub xs (shift xs).

(** [pct_change()], with its default [fill_method='pad']:
    [y / y.shift(1) - 1] for [y] the forward-filled column. *)
Definition pct_change (xs : list num) : list num :=
  let y := ffill xs in
  (fun r => r - Num.of_Z 1)%num <$> zip_with Num.div y (shift y).

(** [xs.where(cond, other)]: keep where [cond] holds. *)
Definition where_ (cond : list bool) (xs : list num) (other : num)
    : list num :=
  zip_with (fun (c : bool) x => if c then x else other) cond xs.

(** [mask.sum()] of a boolean column. *)
Definition count_true (mask : list bool) : nat :=
  length (filter (fun b => b = true) mask).

(** [df.loc[mask, col] = value], columns aligned on the same index. *)
Fixpoint loc_assign (mask : list bool) (value old : list num) : list num :=
  match mask, value, old with
  | m :: ms, v :: vs, o :: os =>
      (if m then v else o) :: loc_assign ms vs os
  | _, _, os => os
  end.

(** The observations of a window under [min_periods = window]: every
    value must be a finite number (rolling turns infinities into NaN
    before it aggregates, and NaN is not counted). *)
Fixpoint observations (win : list num) : option (list Q) :=
  match win with
  | [] => Some []
  | Fin q :: rest => (q ::.) <$> observations rest
  | _ :: _ => None
  end.

(** The [w] values at indices [hi + 1 - w .. hi], if they all exist. *)
Definition window (w hi : nat) (xs : list num) : option (list Q) :=
  if (w <=? S hi) && (hi <? length xs)
  then observations (take w (drop (S hi - w) xs))
  else None.

(** [rolling(window=w, center=c)] followed by an aggregation.  A
    trailing window ends at the current index; a centered one ends
    [(w - 1) // 2] indices later. *)
Definition rolling (w : nat) (center : bool) (agg : list Q -> num)
    (xs : list num) : list num :=
  let off := if center then (w - 1) / 2 else 0 in
  (fun i => from_option agg NaN (window w (i + off) xs))
    <$> seq 0 (length xs).

Definition Qsum (vs : list Q) : Q := foldr Qplus 0%Q vs.

(** [.mean()] of a window. *)
Definition mean (vs : list Q) : num :=
  match vs with
  | [] => NaN
  | _ => Fin (Qred (Qsum vs / inject_Z (Z.of_nat (length vs))))
  end.

(** Sample variance (ddof = 1) of a window. *)
Definition Qvar (vs : list Q) : Q :=
  let n := inject_Z (Z.of_nat (length vs)) in
  let m := (Qsum vs / n)%Q in
  (Qsum ((fun x => (x - m) * (x - m))%Q <$> vs) / (n - 1))%Q.

(** [.std()] of a window, for a square root [Qsqrt]. *)
Definition std (Qsqrt : Q -> Q) (vs : list Q) : num :=
  match vs with
  | [] | [_] => NaN
  | _ => Fin (Qsqrt (Qred (Qvar vs)))
  end.

(** [x == y] on doubles. *)
Definition eqb (x y : num) : bool :=
  match x, y with
  | Fin a, Fin b => Qeq_bool a b
  | PInf, PInf | NInf, NInf => true
  | _, _ => false
  end.

(** One step of [ewm(span=s).mean()] with the defaults [adjust=True],
    [ignore_na=False]: the state is the running mean and the weight
    carried by the past. *)
Definition ewm_step (alpha : Q) (st : num * Q) (cur : num) : num * Q :=
  let '(weighted, old_wt) := st in
  if Num.isna weighted then
    if Num.isna cur then st else (cur, old_wt)
  else
    let old_wt := (old_wt * (1 - alpha))%Q in
    if Num.isna cur then (weighted, old_wt)
    else
      let weighted :=
        if eqb weighted cur then weighted
        else ((Fin old_wt * weighted + cur) / Fin (old_wt + 1))%num in
      (weighted, (old_wt + 1)%Q).

(** The value written at each index is the running mean; it is NaN as long
    as no observation was seen, which is what [min_periods=0] asks for. *)
Fixpoint ewm_from (alpha : Q) (st : num * Q) (xs : list num) : list num :=
  match xs with
  | [] => []
  | cur :: xs' =>
      let st' := ewm_step alpha st cur in
      st'.1 :: ewm_from alpha st' xs'
  end.

(** [ewm(span=s).mean()]; [alpha = 2 / (s + 1)], the first value seeds
    the mean with weight 1. *)
Definition ewm_mean (span : Z) (xs : list num) : list num :=
  match xs with
  | [] => []
  | x0 :: xs' => x0 :: ewm_from (2 # Z.to_pos (span + 1)) (x0, 1%Q) xs'
  end.

End pd.

(** ** Frames *)

(** An OHLCV series as a frame of columns over a date index. *)
Record Frame : Type := mkFrame {
  Date : list Z;
  Open : list num;
  High : list num;
  Low : list num;
  Close : list num;
  Volume : list num
}.

(** The frame after [calculate_technical_indicators] added its columns. *)
Record IFrame : Type := mkIFrame {
  ohlcv : Frame;
  MA_50 : list num;
  MA_200 : list num;
  RSI : list num;
  MACD : list num;
  MACD_Signal : list num;
  MACD_Histogram : list num;
  BB_Middle : list num;
  BB_Upper : list num;
  BB_Lower : list num;
  Volatility : list num;
  Price_Change_Pct : list num
}.

(** Every column has one value per date. *)
Definition wf_frame (f : Frame) : Prop :=
  length (Open f) = length (Date f) /\
  length (High f) = length (Date f) /\
  length (Low f) = length (Date f) /\
  length (Close f) = length (Date f) /\
  length (Volume f) = length (Date f).

(** Apply a column operation to every value column, as [DataFrame.fillna]
    does. *)
Definition map_columns (op : list num -> list num) (f : Frame) : Frame :=
  {| Date := Date f;
     Open := op (Open f);
     High := op (High f);
     Low := op (Low f);
     Close := op (Close f);
     Volume := op (Volume f) |}.

Definition set_Close (c : list num) (f : Frame) : Frame :=
  {| Date := Date f;
     Open := Open f;
     High := High f;
     Low := Low f;
     Close := c;
     Volume := Volume f |}.

(** The first [n] bars of a frame. *)
Definition frame_take (n : nat) (f : Frame) : Frame :=
  {| Date := take n (Date f);
     Open := take n (Open f);
     High := take n (High f);
     Low := take n (Low f);
     Close := take n (Close f);
     Volume := take n (Volume f) |}.

Definition iframe_take (n : nat) (d : IFrame) : IFrame :=
  {| ohlcv := frame_take n (ohlcv d);
     MA_50 := take n (MA_50 d);
     MA_200 := take n (MA_200 d);
     RSI := take n (RSI d);
     MACD := take n (MACD d);
     MACD_Signal := take n (MACD_Signal d);
     MACD_Histogram := take n (MACD_Histogram d);
     BB_Middle := take n (BB_Middle d);
     BB_Upper := take n (BB_Upper d);
     BB_Lower := take n (BB_Lower d);
     Volatility := take n (Volatility d);
     Price_Change_Pct := take n (Price_Change_Pct d) |}.

(** [data.iloc[-1]]; [None] stands for the IndexError of an empty frame. *)
Definition iloc_last (d : IFrame) : option Row :=
  o ← last (Open (ohlcv d));
  h ← last (High (ohlcv d));
  l ← last (Low (ohlcv d));
  c ← last (Close (ohlcv d));
  v ← last (Volume (ohlcv d));
  ma50 ← last (MA_50 d);
  ma200 ← last (MA_200 d);
  rsi ← last (RSI d);
  macd ← last (MACD d);
  sig ← last (MACD_Signal d);
  hist ← last (MACD_Histogram d);
  mid ← last (BB_Middle d);
  up ← last (BB_Upper d);
  lo ← last (BB_Lower d);
  vol ← last (Volatility d);
  pct ← last (Price_Change_Pct d);
  Some (mkRow o h l c v ma50 ma200 rsi macd sig hist mid up lo vol pct).

(** ** Cleaner (src/stock_analyzer.py, lines 102-122) *)

(** The boolean column [price_changes > 0.5]. *)
Definition outlier_mask (close : list num) : list bool :=
  let price_changes := Num.abs <$> pd.pct_change close in
  (fun x => x >? Fin (1 # 2))%num <$> price_changes.

(** The body of the loop of [clean_and_preprocess_data] for one symbol. *)
Definition clean_frame (data : Frame) : Frame :=
  let data_cleaned := map_columns pd.bfill (map_columns pd.ffill data) in
  let outliers := outlier_mask (Close data_cleaned) in
  if 0 <? pd.count_true outliers then
    set_Close
      (pd.loc_assign outliers
         (pd.rolling 3 true pd.mean (Close data_cleaned))
         (Close data_cleaned))
      data_cleaned
  else data_cleaned.

Definition clean_and_preprocess_data (stock_data : gmap string Frame)
    : gmap string Frame :=
  clean_frame <$> stock_data.

(** ** Indicator Engine (src/stock_analyzer.py, lines 139-170) *)

Section Engine.

(** The square root of the rolling standard deviation. *)
Variable Qsqrt : Q -> Q.

(** [100 - (100 / (1 + rs))] *)
Definition rsi_of_rs (rs : num) : num :=
  (Num.of_Z 100 - Num.of_Z 100 / (Num.of_Z 1 + rs))%num.

(** [delta.where(delta > 0, 0)] and [-delta.where(delta < 0, 0)]. *)
Definition gain_column (close : list num) : list num :=
  let delta := pd.diff close in
  pd.where_ ((fun d => d >? Num.of_Z 0)%num <$> delta) delta (Num.of_Z 0).

Definition loss_column (close : list num) : list num :=
  let delta := pd.diff close in
  Num.neg <$>
    pd.where_ ((fun d => d <? Num.of_Z 0)%num <$> delta) delta (Num.of_Z 0).

(** The 14-bar trailing means: average gain and average loss. *)
Definition rsi_gain (close : list num) : list num :=
  pd.rolling 14 false pd.mean (gain_column close).

Definition rsi_loss (close : list num) : list num :=
  pd.rolling 14 false pd.mean (loss_column close).

Definition rsi (close : list num) : list num :=
  let rs := zip_with Num.div (rsi_gain close) (rsi_loss close) in
  rsi_of_rs <$> rs.

Definition macd (close : list num) : list num :=
  let exp12 := pd.ewm_mean 12 close in
  let exp26 := pd.ewm_mean 26 close in
  zip_with Num.sub exp12 exp26.

Definition indicators (data : Frame) : IFrame :=
  let close := Close data in
  let macd_ := macd close in
  let macd_signal_ := pd.ewm_mean 9 macd_ in
  let bb_middle := pd.rolling 20 false pd.mean close in
  let bb_std := pd.rolling 20 false (pd.std Qsqrt) close in
  {| ohlcv := data;
     MA_50 := pd.rolling 50 false pd.mean close;
     MA_200 := pd.rolling 200 false pd.mean close;
     RSI := rsi close;
     MACD := macd_;
     MACD_Signal := macd_signal_;
     MACD_Histogram := zip_with Num.sub macd_ macd_signal_;
     BB_Middle := bb_middle;
     BB_Upper :=
       zip_with Num.add bb_middle ((fun s => s * Num.of_Z 2)%num <$> bb_std);
     BB_Lower :=
       zip_with Num.sub bb_middle ((fun s => s * Num.of_Z 2)%num <$> bb_std);
     Volatility := pd.rolling 30 false (pd.std Qsqrt) close;
     Price_Change_Pct :=
       (fun x => x * Num.of_Z 100)%num <$> pd.pct_change close |}.

Definition calculate_technical_indicators (stock_data : gmap string Frame)
    : gmap string IFrame :=
  indicators <$> stock_data.

End Engine.

(** ** Trend analysis (src/stock_analyzer.py, lines 187-193) *)

(** One turn of the loop of [analyze_trends]: the Signal Set of the latest
    row, with the price and volatility entries added. *)
Definition analyze_latest (latest : Row) : Analysis :=
  let analysis := _analyze_single_stock latest in
  {| ma_signal := ma_signal analysis;
     rsi_value := rsi_value analysis;
     rsi_signal := rsi_signal analysis;
     macd_signal := macd_signal analysis;
     bb_signal := bb_signal analysis;
     score := score analysis;
     recommendation := recommendation analysis;
     current_price := Some (r_Close latest);
     volatility := Some (r_Volatility latest) |}.

(** The loop over [self.stock_data.items()]; it stops with [None] when
    [iloc[-1]] raises. *)
Fixpoint analyze_loop (items : list (string * IFrame))
    (analysis_results : gmap string Analysis)
    : option (gmap string Analysis) :=
  match items with
  | [] => Some analysis_results
  | (symbol, data) :: rest =>
      latest ← iloc_last data;
      analyze_loop rest (<[symbol := analyze_latest latest]> analysis_results)
  end.

Definition analyze_trends (stock_data : gmap string IFrame)
    (analysis_results : gmap string Analysis)
    : option (gmap string Analysis) :=
  analyze_loop (map_to_list stock_data) analysis_results.

(** A rational approximation of the square root, to run the engine:
    the integer square root of the value scaled by [10^12]. *)
Definition Qsqrt_approx (q : Q) : Q :=
  let scale := (10 ^ 6)%Z in
  Qred (Z.sqrt (Qnum q * scale * scale / Zpos (Qden q)) # Z.to_pos scale).

(** A frame whose bars all carry the same value in every price column. *)
Definition frame_of_closes (closes : list Q) : Frame :=
  let c := Fin <$> closes in
  {| Date := Z.of_nat <$> seq 0 (length closes);
     Open := c; High := c; Low := c; Close := c;
     Volume := (fun _ => Num.of_Z 1000) <$> closes |}.

(** ** The tables of the specification, to compare the code with *)

Inductive MASignal := StrongBullish | MABullish | StrongBearish | MABearish.
Inductive RSISignal := Overbought | Oversold | Neutral.
Inductive MACDSignal := MACDBullish | MACDBearish.

Definition ma_label (s : MASignal) : string :=
  match s with
  | StrongBullish => "Strong Bullish"
  | MABullish => "Bullish"
  | StrongBearish => "Strong Bearish"
  | MABearish => "Bearish"
  end.

Definition rsi_label (s : RSISignal) : string :=
  match s with
  | Overbought => "Overbought"
  | Oversold => "Oversold"
  | Neutral => "Neutral"
  end.

Definition macd_label (s : MACDSignal) : string :=
  match s with
  | MACDBullish => "Bullish"
  | MACDBearish => "Bearish"
  end.

Definition ma_contribution (s : MASignal) : Z :=
  match s with
  | StrongBullish => 2
  | MABullish => 1
  | StrongBearish => -2
  | MABearish => -1
  end.

Definition rsi_contribution (s : RSISignal) : Z :=
  match s with
  | Overbought => -1
  | Oversold => 1
  | Neutral => 0
  end.

Definition macd_contribution (s : MACDSignal) : Z :=
  match s with
  | MACDBullish => 1
  | MACDBearish => -1
  end.

Definition clamp (lo hi x : Z) : Z :=
  if (x <? lo)%Z then lo else if (hi <? x)%Z then hi else x.

(** A row with other Bollinger bands. *)
Definition with_bands (mid up lo : num) (r : Row) : Row :=
  mkRow (r_Open r) (r_High r) (r_Low r) (r_Close r) (r_Volume r)
    (r_MA_50 r) (r_MA_200 r) (r_RSI r) (r_MACD r) (r_MACD_Signal r)
    (r_MACD_Histogram r) mid up lo (r_Volatility r) (r_Price_Change_Pct r).

(** ** Predicates on series, as the specification words them *)

(** Nothing is missing in the column. *)
Definition no_missing (xs : list num) : Prop :=
  Forall (fun x => Num.isna x = false) xs.

(** The move into bar [t + 1] is an outlier:
    [abs(close[t+1] / close[t] - 1) > 0.5]. *)
Definition big_move (prev cur : num) : bool :=
  (Num.abs (cur / prev - Num.of_Z 1) >? Fin (1 # 2))%num.

(** An already-clean series: no missing value in any column and no
    single-step relative close move above 50%. *)
Definition already_clean (f : Frame) : Prop :=
  no_missing (Open f) /\ no_missing (High f) /\ no_missing (Low f) /\
  no_missing (Close f) /\ no_missing (Volume f) /\
  forall t p c,
    Close f !! t = Some p -> Close f !! S t = Some c -> big_move p c = false.

(** Column [ys] has the length of [xs] and every present value of [xs]. *)
Definition keeps_present (xs ys : list num) : Prop :=
  length ys = length xs /\
  forall i v, xs !! i = Some v -> Num.isna v = false -> ys !! i = Some v.

(** The frame after the two fills of the Cleaner. *)
Definition filled (data : Frame) : Frame :=
  map_columns pd.bfill (map_columns pd.ffill data).

Definition spike_at_end : Frame := frame_of_closes [100; 100; 200]%Q.

Definition gappy : Frame :=
  {| Date := [1; 2; 3]%Z;
     Open := [NaN; Fin 10; Fin 11];
     High := [Fin 12; NaN; Fin 12];
     Low := [Fin 9; Fin 9; NaN];
     Close := [Fin 10; Fin 30; Fin 11];
     Volume := [Fin 500; NaN; Fin 700] |}.

Definition steady : Frame := frame_of_closes [100; 120; 90; 100]%Q.

(** A column operation is causal when the first [n] values of its result
    are its result on the first [n] values: no value depends on a later
    one. *)
Definition causal {A B : Type} (F : list A -> list B) : Prop :=
  forall xs n, take n (F xs) = F (take n xs).

Definition ramp (n : nat) : list Q :=
  (fun i => inject_Z (Z.of_nat i) + 100)%Q <$> seq 0 n.

(** Every close is above the one before. *)
Definition strictly_increasing (qs : list Q) : Prop :=
  forall i p c, qs !! i = Some p -> qs !! S i = Some c -> (p < c)%Q.

Definition flat (n : nat) : list Q := replicate n 100%Q.

(** ** The exponentially weighted mean, in closed form and as the
    specification words it *)

Fixpoint Qpow (q : Q) (n : nat) : Q :=
  match n with
  | O => 1
  | S n' => q * Qpow q n'
  end.

(** [x_t + (1-a) x_(t-1) + ... + (1-a)^t x_0] *)
Definition wnum (a : Q) (xs : list Q) (t : nat) : Q :=
  pd.Qsum ((fun i => Qpow (1 - a) i * nth (t - i) xs 0)%Q <$> seq 0 (S t)).

(** [1 + (1-a) + ... + (1-a)^t] *)
Definition wden (a : Q) (t : nat) : Q :=
  pd.Qsum ((fun i => Qpow (1 - a) i) <$> seq 0 (S t)).

(** The adjusted exponentially weighted mean at index [t]. *)
Definition ewm_weighted (a : Q) (xs : list Q) (t : nat) : Q :=
  (wnum a xs t / wden a t)%Q.

(** The recurrence of the specification:
    [EMA[t] = a * close[t] + (1 - a) * EMA[t-1]], [EMA[0] = close[0]]. *)
Fixpoint ema_recurrence_from (a prev : Q) (xs : list Q) : list Q :=
  match xs with
  | [] => []
  | x :: xs' =>
      let e := (a * x + (1 - a) * prev)%Q in
      e :: ema_recurrence_from a e xs'
  end.

Definition ema_recurrence (span : Z) (xs : list Q) : list Q :=
  match xs with
  | [] => []
  | x0 :: xs' => x0 :: ema_recurrence_from (2 # Z.to_pos (span + 1)) x0 xs'
  end.

(** MACD as the specification words it. *)
Definition macd_recurrence (xs : list Q) : list Q :=
  zip_with Qminus (ema_recurrence 12 xs) (ema_recurrence 26 xs).

Definition all_nan_row : Row :=
  mkRow (Fin 10) (Fin 11) (Fin 9) (Fin 10) (Fin 1000)
    NaN NaN NaN NaN NaN NaN NaN NaN NaN NaN NaN.

Definition two_bars : Frame := frame_of_closes [100; 110]%Q.

Definition ten_bars : Frame := frame_of_closes (ramp 10).

(** Every column of an indicator frame has one value per date. *)
Definition wf_iframe (d : IFrame) : Prop :=
  wf_frame (ohlcv d) /\
  Forall (fun col => length col = length (Date (ohlcv d)))
    [MA_50 d; MA_200 d; RSI d; MACD d; MACD_Signal d; MACD_Histogram d;
     BB_Middle d; BB_Upper d; BB_Lower d; Volatility d; Price_Change_Pct d].

(** Every close is below the one before. *)
Definition strictly_decreasing (qs : list Q) : Prop :=
  forall i p c, qs !! i = Some p -> qs !! S i = Some c -> (c < p)%Q.

Definition slope_down (n : nat) : list Q :=
  (fun i => 500 - inject_Z (Z.of_nat i))%Q <$> seq 0 n.

(** A value that is a non-negative number or plus infinity. *)
Definition nonneg_or_inf (x : num) : Prop :=
  x = PInf \/ exists q, x = Fin q /\ (0 <= q)%Q.

(** A value that is NaN or a number within the given bounds. *)
Definition nan_or_within (lo hi : Q) (x : num) : Prop :=
  x = NaN \/ exists q, x = Fin q /\ (lo <= q)%Q /\ (q <= hi)%Q.

(** ** The executive summary of [generate_report]
    (src/stock_analyzer.py, lines 531-536) *)

(** [sum(1 for analysis in self.analysis_results.values()
         if "Buy" in analysis['recommendation'])] *)
Definition buy_signals (analysis_results : gmap string Analysis) : nat :=
  length (filter (fun a => str_in "Buy" (recommendation a) = true)
            (map_to_list analysis_results).*2).

Definition sell_signals (analysis_results : gmap string Analysis) : nat :=
  length (filter (fun a => str_in "Sell" (recommendation a) = true)
            (map_to_list analysis_results).*2).

Definition hold_signals (analysis_results : gmap string Analysis) : nat :=
  length (filter (fun a => String.eqb (recommendation a) "Hold" = true)
            (map_to_list analysis_results).*2).

Definition no_bars : Frame := frame_of_closes [].

(** ** Retrieval (src/stock_analyzer.py, lines 36-89) *)



(** [data.empty]: the frame has no row. *)
Definition df_empty (data : Frame) : bool :=
  match Date data with
  | [] => true
  | _ :: _ => false
  end.

Section Fetch.

(** [yf.Ticker(symbol).history(period=period)], the retrieval service
    outside the program; [None] stands for a raised exception. *)
Variable history : string -> string -> option Frame.

(** The loop of [fetch_stock_data] over [self.stocks.keys()]: a frame is
    stored and counted when the call returns and the frame is not empty;
    an exception is caught and the loop goes on. *)
Fixpoint fetch_loop (symbols : list string) (period : string)
    (stock_data : gmap string Frame) (successful_fetches : nat)
    : gmap string Frame * nat :=
  match symbols with
  | [] => (stock_data, successful_fetches)
  | symbol :: rest =>
      match history symbol period with
      | Some data =>
          if negb (df_empty data)
          then fetch_loop rest period (<[symbol := data]> stock_data)
                 (S successful_fetches)
          else fetch_loop rest period stock_data successful_fetches
      | None => fetch_loop rest period stock_data successful_fetches
      end
  end.

(** Returns the new [stock_data] and [successful_fetches > 0]. *)
Definition fetch_stock_data (stocks : list (string * string))
    (period : string) (stock_data : gmap string Frame)
    : gmap string Frame * bool :=
  let '(stock_data', successful_fetches) :=
    fetch_loop stocks.*1 period stock_data 0 in
  (stock_data', 0 <? successful_fetches).


(** A symbol whose retrieval returns a frame with at least one row. *)
Definition fetched (period symbol : string) (data : Frame) : Prop :=
  history symbol period = Some data /\ df_empty data = false.

End Fetch.

(** A retrieval service to run the steps on: one symbol with ten bars,
    one with no data, every other symbol fails. *)
Definition demo_history (symbol period : string) : option Frame :=
  if String.eqb symbol "TEN" then Some ten_bars
  else if String.eqb symbol "NONE" then Some no_bars
  else None.

(** ** The sector section of [generate_report]
    (src/stock_analyzer.py, lines 573-589) *)

Inductive exn : Type :=
| KeyError (key : string)
| IndexError.

(** [s.split(sep)] for a separator that is not empty: the text is cut at
    every occurrence of [sep], found from left to right; [skip] counts the
    characters of a separator still to pass over and [cur] is the piece
    being read. *)
Fixpoint split_from (sep : string) (skip : nat) (cur s : string)
    : list string :=
  match s with
  | EmptyString => [cur]
  | String ch rest =>
      match skip with
      | S k => split_from sep k cur rest
      | O =>
          if String.prefix sep s
          then cur :: split_from sep (String.length sep - 1) EmptyString rest
          else split_from sep 0 (cur +:+ String ch EmptyString) rest
      end
  end.

Definition str_split (sep s : string) : list string :=
  split_from sep 0 EmptyString s.

(** [if sector not in sectors: sectors[sector] = []] followed by
    [sectors[sector].append(symbol)], on a dict in insertion order. *)
Fixpoint dict_append (sector symbol : string)
    (sectors : list (string * list string)) : list (string * list string) :=
  match sectors with
  | [] => [(sector, [symbol])]
  | (t, symbols) :: rest =>
      if String.eqb t sector then (t, symbols ++ [symbol]) :: rest
      else (t, symbols) :: dict_append sector symbol rest
  end.

(** The first loop: group the symbols of [self.stocks] by the text after
    the first [" - "] of their description. *)
Fixpoint build_sectors (items : list (string * string))
    (sectors : list (string * list string))
    : exn + list (string * list string) :=
  match items with
  | [] => inr sectors
  | (symbol, description) :: rest =>
      if str_in " - " description then
        match str_split " - " description !! 1 with
        | None => inl IndexError
        | Some sector => build_sectors rest (dict_append sector symbol sectors)
        end
      else build_sectors rest sectors
  end.

(** [[self.analysis_results[symbol]['score'] for symbol in symbols]] *)
Fixpoint sector_scores (analysis_results : gmap string Analysis)
    (symbols : list string) : exn + list Z :=
  match symbols with
  | [] => inr []
  | symbol :: rest =>
      match analysis_results !! symbol with
      | None => inl (KeyError symbol)
      | Some analysis =>
          match sector_scores analysis_results rest with
          | inl e => inl e
          | inr scores => inr (score analysis :: scores)
          end
      end
  end.

(** [sum(sector_scores) / len(sector_scores)] *)
Definition average (scores : list Z) : Q :=
  (inject_Z (foldr Z.add 0%Z scores) / inject_Z (Z.of_nat (length scores)))%Q.

(** The second loop: for every sector with more than one symbol, the
    average score and the symbols that the report prints. *)
Fixpoint sector_lines (analysis_results : gmap string Analysis)
    (sectors : list (string * list string))
    : exn + list (string * Q * list string) :=
  match sectors with
  | [] => inr []
  | (sector, symbols) :: rest =>
      if 1 <? length symbols then
        match sector_scores analysis_results symbols with
        | inl e => inl e
        | inr scores =>
            match sector_lines analysis_results rest with
            | inl e => inl e
            | inr out => inr ((sector, average scores, symbols) :: out)
            end
        end
      else sector_lines analysis_results rest
  end.

Definition sector_section (stocks : list (string * string))
    (analysis_results : gmap string Analysis)
    : exn + list (string * Q * list string) :=
  match build_sectors stocks [] with
  | inl e => inl e
  | inr sectors => sector_lines analysis_results sectors
  end.

(** The sector named by a description, and the symbols of a sector, to
    state what the section computes. *)
Definition sector_of (description : string) : option string :=
  if str_in " - " description then str_split " - " description !! 1
  else None.

Definition members (sector : string) (stocks : list (string * string))
    : list string :=
  (filter (fun p => sector_of p.2 = Some sector) stocks).*1.

Definition two_tech : list (string * string) :=
  [ ("AAPL", "Apple Inc. - Technology");
    ("JNJ", "Johnson & Johnson - Healthcare");
    ("MSFT", "Microsoft Corporation - Technology") ].

(** The symbols recorded for a sector in the dict, none when it has no
    entry. *)
Fixpoint group_of (sector : string) (sectors : list (string * list string))
    : list string :=
  match sectors with
  | [] => []
  | (t, symbols) :: rest =>
      if String.eqb t sector then symbols else group_of sector rest
  end.

(** A dict of sectors: no sector twice, no sector without a symbol. *)
Definition wf_sectors (sectors : list (string * list string)) : Prop :=
  NoDup sectors.*1 /\ Forall (fun e => e.2 <> []) sectors.

(** * Properties *)

(** ** Comparisons with a missing value *)

Lemma lt_NaN_l x : (NaN <? x)%num = false.
Proof. reflexivity. Qed.

Lemma lt_NaN_r x : (x <? NaN)%num = false.
Proof. by destruct x. Qed.

Lemma gt_NaN_l x : (NaN >? x)%num = false.
Proof. apply lt_NaN_r. Qed.

Lemma gt_NaN_r x : (x >? NaN)%num = false.
Proof. reflexivity. Qed.

(** ** Signal Evaluator *)

Lemma ma_signal_category row : exists s, _get_ma_signal row = ma_label s.
Proof.
  unfold _get_ma_signal.
  destruct (_ && _); [by exists StrongBullish|].
  destruct (_ >? _)%num; [by exists MABullish|].
  destruct (_ && _); [by exists StrongBearish | by exists MABearish].
Qed.

Lemma rsi_signal_category v : exists s, _get_rsi_signal v = rsi_label s.
Proof.
  unfold _get_rsi_signal.
  destruct (_ >? _)%num; [by exists Overbought|].
  destruct (_ <? _)%num; [by exists Oversold | by exists Neutral].
Qed.

Lemma macd_signal_category row : exists s, _get_macd_signal row = macd_label s.
Proof.
  unfold _get_macd_signal.
  destruct (_ >? _)%num; [by exists MACDBullish | by exists MACDBearish].
Qed.

Lemma composite_score_range a b c :
  (-3 <= _calculate_composite_score a b c <= 3)%Z.
Proof. unfold _calculate_composite_score. lia. Qed.

(** C2: a latest row whose MA_50, MA_200, RSI, MACD and MACD_Signal are
    all NaN still gets a complete Signal Set: MA signal Bearish, RSI signal
    Neutral, MACD signal Bearish, score -2, recommendation Strong Sell.
    The evaluator is a total function, it neither raises nor refuses. *)
Theorem undefined_row_signal_set (row : Row) :
  r_MA_50 row = NaN -> r_MA_200 row = NaN -> r_RSI row = NaN ->
  r_MACD row = NaN -> r_MACD_Signal row = NaN ->
  let a := _analyze_single_stock row in
  ma_signal a = "Bearish" /\ rsi_signal a = "Neutral" /\
  macd_signal a = "Bearish" /\ score a = (-2)%Z /\
  recommendation a = "Strong Sell".
Proof.
  intros H50 H200 Hrsi Hmacd Hsig.
  assert (Hma : _get_ma_signal row = "Bearish").
  { unfold _get_ma_signal. by rewrite H50, gt_NaN_r, lt_NaN_r. }
  assert (Hr : _get_rsi_signal (r_RSI row) = "Neutral").
  { by rewrite Hrsi. }
  assert (Hm : _get_macd_signal row = "Bearish").
  { unfold _get_macd_signal. by rewrite Hsig, gt_NaN_r. }
  cbn -[_get_ma_signal _get_rsi_signal _get_macd_signal
        _calculate_composite_score _get_recommendation].
  rewrite Hma, Hr, Hm. repeat split; reflexivity.
Qed.

Lemma undefined_row_signal_set_witness :
  let a := _analyze_single_stock all_nan_row in
  ma_signal a = "Bearish" /\ rsi_signal a = "Neutral" /\
  macd_signal a = "Bearish" /\ score a = (-2)%Z /\
  recommendation a = "Strong Sell".
Proof. apply (undefined_row_signal_set all_nan_row); reflexivity. Defined.

(** C5: on the signal categories the composite score is the clamped sum of
    the three contributions of the table; it lies in [-3, 3] whatever the
    signals are; and it is the same whatever the Bollinger bands are. *)
Theorem composite_score_table :
  (forall (m : MASignal) (r : RSISignal) (c : MACDSignal),
      _calculate_composite_score (ma_label m) (rsi_label r) (macd_label c) =
      clamp (-3) 3
        (ma_contribution m + rsi_contribution r + macd_contribution c)) /\
  (forall a b c : string, (-3 <= _calculate_composite_score a b c <= 3)%Z) /\
  (forall (row : Row) (mid up lo : num),
      score (_analyze_single_stock (with_bands mid up lo row)) =
      score (_analyze_single_stock row)).
Proof.
  split; [|split].
  - by intros [] [] [].
  - apply composite_score_range.
  - by intros [].
Qed.

Lemma dict_get_notin {V} (d : list (Z * V)) k dflt :
  k ∉ d.*1 -> dict_get d k dflt = dflt.
Proof.
  induction d as [|[k' v] d IH]; [done|].
  rewrite fmap_cons, not_elem_of_cons. simpl. intros [Hne Hd].
  destruct (Z.eqb_spec k' k); [congruence | auto].
Qed.

(** C6: the recommendation is the fixed table on [-3, 3], and Hold for
    every other integer score. *)
Theorem recommendation_table :
  _get_recommendation 3 = "Strong Buy" /\
  _get_recommendation 2 = "Strong Buy" /\
  _get_recommendation 1 = "Buy" /\
  _get_recommendation 0 = "Hold" /\
  _get_recommendation (-1) = "Sell" /\
  _get_recommendation (-2) = "Strong Sell" /\
  _get_recommendation (-3) = "Strong Sell" /\
  (forall s : Z, (s < -3 \/ 3 < s)%Z -> _get_recommendation s = "Hold").
Proof.
  repeat (split; [reflexivity|]).
  intros s Hs. apply dict_get_notin. cbn.
  rewrite !not_elem_of_cons. repeat split; try lia. apply not_elem_of_nil.
Qed.

Lemma recommendation_table_witness :
  _get_recommendation 7 = "Hold" /\ _get_recommendation (-4) = "Hold".
Proof.
  destruct recommendation_table as (_ & _ & _ & _ & _ & _ & _ & H).
  split; apply H; lia.
Defined.

(** ** Column operations: lengths and lookups *)

Lemma length_ffill_from prev xs : length (pd.ffill_from prev xs) = length xs.
Proof. revert prev. induction xs; intros; simpl; auto. Qed.

Lemma length_ffill xs : length (pd.ffill xs) = length xs.
Proof. apply length_ffill_from. Qed.

Lemma length_bfill xs : length (pd.bfill xs) = length xs.
Proof. induction xs; simpl; auto. Qed.

Lemma length_shift xs : length (pd.shift xs) = length xs.
Proof. unfold pd.shift. rewrite length_take. simpl. lia. Qed.

Lemma length_pct_change xs : length (pd.pct_change xs) = length xs.
Proof.
  unfold pd.pct_change.
  rewrite length_fmap, length_zip_with, length_shift, length_ffill. lia.
Qed.

Lemma length_outlier_mask xs : length (outlier_mask xs) = length xs.
Proof. unfold outlier_mask. by rewrite !length_fmap, length_pct_change. Qed.

Lemma length_rolling w c agg xs : length (pd.rolling w c agg xs) = length xs.
Proof. unfold pd.rolling. by rewrite length_fmap, length_seq. Qed.

Lemma length_loc_assign mask value old :
  length (pd.loc_assign mask value old) = length old.
Proof.
  revert value old.
  induction mask as [|m mask IH]; intros [|v value] [|o old]; simpl; auto.
Qed.

Lemma lookup_shift_0 x xs : pd.shift (x :: xs) !! 0 = Some NaN.
Proof. reflexivity. Qed.

Lemma lookup_shift_S xs t :
  S t < length xs -> pd.shift xs !! S t = xs !! t.
Proof. intros Ht. unfold pd.shift. by rewrite lookup_take_lt. Qed.

(** A value that is present survives both fills. *)
Lemma lookup_ffill_from_present prev xs i v :
  xs !! i = Some v -> Num.isna v = false ->
  pd.ffill_from prev xs !! i = Some v.
Proof.
  revert prev i. induction xs as [|x xs IH]; intros prev [|i] Hx Hv; try done.
  - simpl in *. injection Hx as ->. by rewrite Hv.
  - simpl in *. by apply IH.
Qed.

Lemma lookup_bfill_present xs i v :
  xs !! i = Some v -> Num.isna v = false -> pd.bfill xs !! i = Some v.
Proof.
  revert i. induction xs as [|x xs IH]; intros [|i] Hx Hv; try done.
  - simpl in *. injection Hx as ->. by rewrite Hv.
  - simpl in *. by apply IH.
Qed.

Lemma ffill_from_no_missing prev xs :
  no_missing xs -> pd.ffill_from prev xs = xs.
Proof.
  intros H. revert prev. induction H as [|x xs Hx _ IH]; intros prev; [done|].
  simpl. by rewrite Hx, IH.
Qed.

Lemma bfill_no_missing xs : no_missing xs -> pd.bfill xs = xs.
Proof.
  induction 1 as [|x xs Hx _ IH]; [done|]. simpl. by rewrite Hx, IH.
Qed.

Lemma count_true_0 mask :
  (forall i, mask !! i <> Some true) -> pd.count_true mask = 0.
Proof.
  unfold pd.count_true. induction mask as [|b mask IH]; intros H; [done|].
  destruct b; [by specialize (H 0)|].
  rewrite filter_cons_False by done. apply IH. intros i. apply (H (S i)).
Qed.

Lemma count_true_pos mask i :
  mask !! i = Some true -> 0 < pd.count_true mask.
Proof.
  unfold pd.count_true. revert i.
  induction mask as [|b mask IH]; intros [|i] H; try done.
  - simpl in H. injection H as ->. rewrite filter_cons_True by done.
    simpl. lia.
  - simpl in H. specialize (IH _ H).
    destruct b; [rewrite filter_cons_True by done; simpl; lia|].
    by rewrite filter_cons_False by done.
Qed.

Lemma lookup_loc_assign_true mask value old i v o :
  mask !! i = Some true -> value !! i = Some v -> old !! i = Some o ->
  pd.loc_assign mask value old !! i = Some v.
Proof.
  revert value old i.
  induction mask as [|m mask IH]; intros [|x value] [|y old] [|i];
    simpl; try done.
  - intros [= ->] [= ->] _. done.
  - apply IH.
Qed.

(** The relative move of the first bar is missing: it is never an
    outlier. *)
Lemma pct_change_0 xs :
  pd.pct_change xs !! 0 = None \/ pd.pct_change xs !! 0 = Some NaN.
Proof.
  destruct xs as [|x xs]; [by left|right].
  unfold pd.pct_change. rewrite list_lookup_fmap, lookup_zip_with.
  simpl. by destruct (if Num.isna x then NaN else x).
Qed.

Lemma outlier_mask_0 xs : outlier_mask xs !! 0 <> Some true.
Proof.
  unfold outlier_mask. rewrite !list_lookup_fmap.
  by destruct (pct_change_0 xs) as [-> | ->].
Qed.

Lemma outlier_mask_S xs t p c :
  no_missing xs -> xs !! t = Some p -> xs !! S t = Some c ->
  outlier_mask xs !! S t = Some (big_move p c).
Proof.
  intros Hxs Hp Hc. unfold outlier_mask, pd.pct_change, pd.ffill.
  rewrite (ffill_from_no_missing _ _ Hxs).
  rewrite !list_lookup_fmap, lookup_zip_with, Hc. simpl.
  rewrite lookup_shift_S, Hp; [done|].
  by apply lookup_lt_Some in Hc.
Qed.

(** ** Cleaner *)

Lemma fill_keeps_present xs : keeps_present xs (pd.bfill (pd.ffill xs)).
Proof.
  split; [by rewrite length_bfill, length_ffill|].
  intros i v Hx Hv. apply lookup_bfill_present; [|done].
  by apply lookup_ffill_from_present.
Qed.

Lemma clean_frame_columns data :
  Date (clean_frame data) = Date data /\
  Open (clean_frame data) = pd.bfill (pd.ffill (Open data)) /\
  High (clean_frame data) = pd.bfill (pd.ffill (High data)) /\
  Low (clean_frame data) = pd.bfill (pd.ffill (Low data)) /\
  Volume (clean_frame data) = pd.bfill (pd.ffill (Volume data)) /\
  length (Close (clean_frame data)) = length (Close data).
Proof.
  unfold clean_frame. destruct (0 <? _); simpl;
    rewrite ?length_loc_assign, length_bfill, length_ffill; done.
Qed.

(** C8: the Cleaner keeps the dates and the bar count, and every open,
    high, low and volume value that is present in the input; only close
    values are smoothed. *)
Theorem cleaner_frame (stock_data : gmap string Frame) symbol data :
  stock_data !! symbol = Some data ->
  exists out,
    clean_and_preprocess_data stock_data !! symbol = Some out /\
    Date out = Date data /\
    length (Close out) = length (Close data) /\
    keeps_present (Open data) (Open out) /\
    keeps_present (High data) (High out) /\
    keeps_present (Low data) (Low out) /\
    keeps_present (Volume data) (Volume out).
Proof.
  intros Hdata. exists (clean_frame data).
  unfold clean_and_preprocess_data. rewrite lookup_fmap, Hdata.
  destruct (clean_frame_columns data) as (-> & -> & -> & -> & -> & ->).
  repeat split; try reflexivity; try apply fill_keeps_present.
Qed.

Lemma cleaner_frame_witness :
  exists out,
    clean_and_preprocess_data {[ "GAP" := gappy ]} !! "GAP" = Some out /\
    Date out = Date gappy /\
    length (Close out) = length (Close gappy) /\
    keeps_present (Open gappy) (Open out) /\
    keeps_present (High gappy) (High out) /\
    keeps_present (Low gappy) (Low out) /\
    keeps_present (Volume gappy) (Volume out).
Proof. apply (cleaner_frame {[ "GAP" := gappy ]} "GAP" gappy). reflexivity. Defined.

Lemma outlier_mask_clean xs :
  no_missing xs ->
  (forall t p c, xs !! t = Some p -> xs !! S t = Some c ->
                 big_move p c = false) ->
  pd.count_true (outlier_mask xs) = 0.
Proof.
  intros Hxs Hmove. apply count_true_0. intros [|t]; [apply outlier_mask_0|].
  intros Hm.
  assert (Hlt : S t < length xs).
  { apply lookup_lt_Some in Hm. by rewrite length_outlier_mask in Hm. }
  destruct (lookup_lt_is_Some_2 xs (S t) Hlt) as [c Hc].
  destruct (lookup_lt_is_Some_2 xs t) as [p Hp]; [lia|].
  rewrite (outlier_mask_S xs t p c Hxs Hp Hc) in Hm.
  rewrite (Hmove t p c Hp Hc) in Hm. done.
Qed.

Lemma clean_frame_already_clean f : already_clean f -> clean_frame f = f.
Proof.
  intros (Ho & Hh & Hl & Hc & Hv & Hmove). unfold clean_frame.
  assert (Hfill : map_columns pd.bfill (map_columns pd.ffill f) = f).
  { destruct f; unfold map_columns, pd.ffill; simpl in *.
    by rewrite !ffill_from_no_missing, !bfill_no_missing. }
  rewrite Hfill, outlier_mask_clean; done.
Qed.

(** C9: on an already-clean series the Cleaner is the identity, so a
    second run changes nothing. *)
Theorem cleaner_idempotent (f : Frame) :
  already_clean f ->
  clean_frame f = f /\ clean_frame (clean_frame f) = clean_frame f.
Proof.
  intros Hf. pose proof (clean_frame_already_clean f Hf) as Heq.
  by rewrite !Heq.
Qed.

Lemma steady_already_clean : already_clean steady.
Proof.
  repeat split; try (repeat constructor).
  intros [|[|[|[|t]]]] p c Hp Hc; simpl in *; try done;
    by injection Hp as <-; injection Hc as <-.
Qed.

Lemma cleaner_idempotent_witness :
  clean_frame steady = steady /\
  clean_frame (clean_frame steady) = clean_frame steady.
Proof. apply (cleaner_idempotent steady). apply steady_already_clean. Defined.

Lemma rolling_center3_last agg xs :
  xs <> [] -> last (pd.rolling 3 true agg xs) = Some NaN.
Proof.
  intros Hne. rewrite last_lookup, length_rolling. unfold pd.rolling.
  assert (Hlen : 0 < length xs) by (destruct xs; [done | simpl; lia]).
  rewrite list_lookup_fmap, lookup_seq_lt by lia. simpl.
  unfold pd.window.
  replace (Nat.pred (length xs) + 1) with (length xs) by lia.
  by rewrite Nat.ltb_irrefl, andb_false_r.
Qed.

(** C10: the first bar is never flagged; a flagged last bar has its close
    replaced by NaN, the centered 3-bar mean having no full window there;
    so the Cleaner can put a missing close into a series that had none. *)
Theorem boundary_outliers :
  (forall close, head (outlier_mask close) <> Some true) /\
  (forall data,
      last (outlier_mask (Close (filled data))) = Some true ->
      last (Close (clean_frame data)) = Some NaN) /\
  (no_missing (Close spike_at_end) /\
   Close (clean_frame spike_at_end) = [Fin 100; Fin 100; NaN]).
Proof.
  split; [|split].
  - intros close. rewrite head_lookup. apply outlier_mask_0.
  - intros data Hlast. unfold clean_frame. fold (filled data).
    set (close := Close (filled data)) in *.
    rewrite last_lookup, length_outlier_mask in Hlast.
    pose proof (count_true_pos _ _ Hlast) as Hpos.
    apply Nat.ltb_lt in Hpos. rewrite Hpos. simpl.
    assert (Hne : close <> []).
    { intros E. rewrite E in Hlast. done. }
    pose proof (rolling_center3_last pd.mean close Hne) as Hroll.
    rewrite last_lookup, length_rolling in Hroll.
    rewrite last_lookup, length_loc_assign.
    destruct (lookup_lt_is_Some_2 close (Nat.pred (length close))) as [o Ho].
    { destruct close; [done | simpl; lia]. }
    by apply lookup_loc_assign_true with o.
  - split; [repeat constructor | reflexivity].
Qed.

Lemma boundary_outliers_witness :
  last (Close (clean_frame spike_at_end)) = Some NaN.
Proof.
  destruct boundary_outliers as (_ & H & _).
  apply (H spike_at_end). reflexivity.
Defined.

(** ** Indicator Engine: no look-ahead *)

Lemma causal_compose {A B C} (F : list A -> list B) (G : list B -> list C) :
  causal F -> causal G -> causal (fun xs => G (F xs)).
Proof. intros HF HG xs n. by rewrite HG, HF. Qed.

Lemma causal_fmap {A B} (f : A -> B) : causal (fmap f).
Proof. intros xs n. by rewrite fmap_take. Qed.

Lemma causal_zip_with {A B C D} (f : B -> C -> D)
    (F : list A -> list B) (G : list A -> list C) :
  causal F -> causal G -> causal (fun xs => zip_with f (F xs) (G xs)).
Proof. intros HF HG xs n. by rewrite zip_with_take, HF, HG. Qed.

Lemma causal_id {A} : causal (fun xs : list A => xs).
Proof. done. Qed.

Lemma causal_ffill_from prev : causal (pd.ffill_from prev).
Proof.
  intros xs. revert prev.
  induction xs as [|x xs IH]; intros prev [|n]; simpl; try done.
  by rewrite IH.
Qed.

Lemma causal_shift : causal pd.shift.
Proof.
  intros xs n. unfold pd.shift. rewrite take_take, length_take.
  destruct (n `min` length xs) as [|m] eqn:Hm; [done|].
  simpl. f_equal. rewrite take_take. f_equal. lia.
Qed.

Lemma causal_diff : causal pd.diff.
Proof. apply causal_zip_with; [apply causal_id | apply causal_shift]. Qed.

Lemma causal_pct_change : causal pd.pct_change.
Proof.
  unfold pd.pct_change.
  apply (causal_compose _ (fmap _)); [|apply causal_fmap].
  apply causal_zip_with; [apply causal_ffill_from|].
  apply (causal_compose pd.ffill pd.shift);
    [apply causal_ffill_from | apply causal_shift].
Qed.

Lemma causal_where (c : num -> bool) other :
  causal (fun xs => pd.where_ (c <$> xs) xs other).
Proof.
  unfold pd.where_.
  apply causal_zip_with; [apply causal_fmap | apply causal_id].
Qed.

Lemma window_take w i n xs :
  i < n -> pd.window w i (take n xs) = pd.window w i xs.
Proof.
  intros Hin. unfold pd.window. rewrite length_take.
  destruct (Nat.leb_spec w (S i)) as [Hw|Hw]; [|done].
  replace (i <? n `min` length xs) with (i <? length xs)
    by (destruct (Nat.ltb_spec i (length xs)),
                 (Nat.ltb_spec i (n `min` length xs)); (done || lia)).
  destruct (i <? length xs); [|done]. simpl.
  rewrite !take_drop_commute, take_take. do 3 f_equal. lia.
Qed.

Lemma causal_rolling_trailing w agg : causal (pd.rolling w false agg).
Proof.
  intros xs n. unfold pd.rolling.
  rewrite <- fmap_take, take_seq, length_take.
  apply list_fmap_ext. intros k i Hi.
  apply lookup_seq in Hi as [-> Hi]. simpl.
  rewrite Nat.add_0_r, window_take; [done | lia].
Qed.

Lemma causal_ewm_from alpha st : causal (pd.ewm_from alpha st).
Proof.
  intros xs. revert st.
  induction xs as [|x xs IH]; intros st [|n]; simpl; try done.
  by rewrite IH.
Qed.

Lemma causal_ewm_mean span : causal (pd.ewm_mean span).
Proof.
  intros [|x xs] [|n]; simpl; try done. by rewrite causal_ewm_from.
Qed.

Lemma causal_rsi : causal rsi.
Proof.
  unfold rsi.
  apply (causal_compose _ (fmap _)); [|apply causal_fmap].
  apply causal_zip_with.
  - unfold rsi_gain.
    apply (causal_compose _ (pd.rolling 14 false pd.mean));
      [|apply causal_rolling_trailing].
    apply (causal_compose pd.diff
             (fun d => pd.where_ (_ <$> d) d _));
      [apply causal_diff | apply causal_where].
  - unfold rsi_loss.
    apply (causal_compose _ (pd.rolling 14 false pd.mean));
      [|apply causal_rolling_trailing].
    apply (causal_compose _ (fmap _)); [|apply causal_fmap].
    apply (causal_compose pd.diff
             (fun d => pd.where_ (_ <$> d) d _));
      [apply causal_diff | apply causal_where].
Qed.

Lemma causal_macd : causal macd.
Proof. apply causal_zip_with; apply causal_ewm_mean. Qed.

Lemma causal_bands Qsqrt (f : num -> num -> num) :
  causal (fun close =>
            zip_with f (pd.rolling 20 false pd.mean close)
              ((fun s => s * Num.of_Z 2)%num
                 <$> pd.rolling 20 false (pd.std Qsqrt) close)).
Proof.
  apply causal_zip_with; [apply causal_rolling_trailing|].
  apply (causal_compose _ (fmap _));
    [apply causal_rolling_trailing | apply causal_fmap].
Qed.

(** The engine on the first [n] bars is the first [n] rows of the engine
    on the whole series. *)
Lemma indicators_take Qsqrt n data :
  iframe_take n (indicators Qsqrt data) =
  indicators Qsqrt (frame_take n data).
Proof.
  unfold iframe_take, indicators. simpl. f_equal.
  - apply causal_rolling_trailing.
  - apply causal_rolling_trailing.
  - apply causal_rsi.
  - apply causal_macd.
  - apply (causal_compose macd (pd.ewm_mean 9));
      [apply causal_macd | apply causal_ewm_mean].
  - apply (causal_zip_with Num.sub macd (fun c => pd.ewm_mean 9 (macd c)));
      [apply causal_macd|].
    apply (causal_compose macd (pd.ewm_mean 9));
      [apply causal_macd | apply causal_ewm_mean].
  - apply causal_rolling_trailing.
  - apply (causal_bands Qsqrt Num.add).
  - apply (causal_bands Qsqrt Num.sub).
  - apply causal_rolling_trailing.
  - apply (causal_compose pd.pct_change (fmap _));
      [apply causal_pct_change | apply causal_fmap].
Qed.

(** C7: the Indicator Engine has no look-ahead.  Two series that agree on
    bars [0..t] get the same value in every derived column at every index
    up to [t], whatever their later bars are and however many there are. *)
Theorem indicators_causal Qsqrt (f1 f2 : Frame) (t : nat) :
  frame_take (S t) f1 = frame_take (S t) f2 ->
  iframe_take (S t) (indicators Qsqrt f1) =
  iframe_take (S t) (indicators Qsqrt f2).
Proof. intros Heq. by rewrite !indicators_take, Heq. Qed.

Lemma indicators_causal_witness :
  iframe_take 3 (indicators Qsqrt_approx (frame_of_closes [100; 101; 102; 500; 7]%Q)) =
  iframe_take 3 (indicators Qsqrt_approx (frame_of_closes [100; 101; 102]%Q)).
Proof.
  apply (indicators_causal Qsqrt_approx
           (frame_of_closes [100; 101; 102; 500; 7]%Q)
           (frame_of_closes [100; 101; 102]%Q) 2).
  reflexivity.
Defined.

(** ** RSI *)

Lemma lookup_where (c : num -> bool) other xs i :
  pd.where_ (c <$> xs) xs other !! i =
  (fun x => if c x then x else other) <$> xs !! i.
Proof.
  unfold pd.where_. rewrite lookup_zip_with, list_lookup_fmap.
  by destruct (xs !! i).
Qed.

Lemma lookup_diff_0 x xs : pd.diff (x :: xs) !! 0 = Some NaN.
Proof. unfold pd.diff. simpl. by destruct x. Qed.

Lemma lookup_diff_S xs i p c :
  xs !! i = Some p -> xs !! S i = Some c ->
  pd.diff xs !! S i = Some (c - p)%num.
Proof.
  intros Hp Hc. unfold pd.diff.
  rewrite lookup_zip_with, Hc, lookup_shift_S, Hp; [done|].
  by apply lookup_lt_Some in Hc.
Qed.

Lemma lookup_rolling_trailing w agg xs t :
  t < length xs ->
  pd.rolling w false agg xs !! t =
  Some (from_option agg NaN (pd.window w t xs)).
Proof.
  intros Ht. unfold pd.rolling.
  rewrite list_lookup_fmap, lookup_seq_lt by done. simpl.
  by rewrite Nat.add_0_r.
Qed.

Lemma window_full w t xs :
  w <= S t -> t < length xs ->
  pd.window w t xs = pd.observations (take w (drop (S t - w) xs)).
Proof.
  intros Hw Ht. unfold pd.window.
  apply Nat.leb_le in Hw. apply Nat.ltb_lt in Ht. by rewrite Hw, Ht.
Qed.

Lemma rsi_gain_unfold close :
  rsi_gain close = pd.rolling 14 false pd.mean (gain_column close).
Proof. reflexivity. Qed.

Lemma rsi_loss_unfold close :
  rsi_loss close = pd.rolling 14 false pd.mean (loss_column close).
Proof. reflexivity. Qed.

Lemma length_diff xs : length (pd.diff xs) = length xs.
Proof. unfold pd.diff. rewrite length_zip_with, length_shift. lia. Qed.

Lemma length_gain_column xs : length (gain_column xs) = length xs.
Proof.
  unfold gain_column, pd.where_.
  rewrite length_zip_with, length_fmap, length_diff. lia.
Qed.

Lemma length_loss_column xs : length (loss_column xs) = length xs.
Proof.
  unfold loss_column, pd.where_.
  rewrite length_fmap, length_zip_with, length_fmap, length_diff. lia.
Qed.

Lemma lookup_rsi close t g l :
  rsi_gain close !! t = Some g -> rsi_loss close !! t = Some l ->
  rsi close !! t = Some (rsi_of_rs (g / l)).
Proof.
  intros Hg Hl. unfold rsi.
  by rewrite list_lookup_fmap, lookup_zip_with, Hg, Hl.
Qed.

Lemma Qsgn_pos q : (0 < q)%Q -> Num.Qsgn q = 1%Z.
Proof.
  destruct q as [n d]. unfold Qlt, Num.Qsgn. simpl. intros H.
  apply Z.sgn_pos. lia.
Qed.

Lemma Qeq_bool_0 q : (q == 0)%Q -> Qeq_bool q 0 = true.
Proof. apply Qeq_bool_iff. Qed.

(** A positive average gain over a zero average loss: RS is infinite and
    RSI is 100. *)
Lemma rsi_of_rs_saturates g l :
  (0 < g)%Q -> (l == 0)%Q -> rsi_of_rs (Fin g / Fin l) = Fin 100.
Proof.
  intros Hg Hl. simpl. by rewrite (Qeq_bool_0 l Hl), (Qsgn_pos g Hg).
Qed.

(** Zero over zero: RS and RSI are NaN. *)
Lemma rsi_of_rs_flat g l :
  (g == 0)%Q -> (l == 0)%Q -> rsi_of_rs (Fin g / Fin l) = NaN.
Proof.
  intros Hg Hl. simpl. rewrite (Qeq_bool_0 l Hl).
  destruct g as [n d]. unfold Qeq in Hg. simpl in Hg.
  assert (n = 0%Z) as -> by lia. reflexivity.
Qed.

Lemma Qltb_lt a b : Qltb a b = true <-> (a < b)%Q.
Proof.
  unfold Qltb. rewrite negb_true_iff, <- not_true_iff_false, Qle_bool_iff.
  split; [apply Qnot_le_lt | apply Qlt_not_le].
Qed.

Lemma Qltb_ge a b : (b <= a)%Q -> Qltb a b = false.
Proof.
  intros H. unfold Qltb. by rewrite (proj2 (Qle_bool_iff b a) H).
Qed.

Lemma observations_Fin vs : pd.observations (Fin <$> vs) = Some vs.
Proof. induction vs as [|v vs IH]; [done|]. csimpl. by rewrite IH. Qed.

Lemma finite_column (xs : list num) :
  (forall i x, xs !! i = Some x -> exists q, x = Fin q) ->
  exists vs, xs = Fin <$> vs.
Proof.
  induction xs as [|x xs IH]; intros H; [by exists []|].
  destruct (H 0 x eq_refl) as [q ->].
  destruct IH as [vs ->]; [intros i; apply (H (S i))|].
  by exists (q :: vs).
Qed.

Lemma lookup_window_column (xs : list num) w k j :
  j < w -> take w (drop k xs) !! j = xs !! (k + j).
Proof. intros Hj. by rewrite lookup_take_lt, lookup_drop. Qed.

Lemma length_window_column (xs : list num) w k :
  k + w <= length xs -> length (take w (drop k xs)) = w.
Proof. intros H. rewrite length_take, length_drop. lia. Qed.

Lemma Qsum_nonneg vs : Forall (fun q => (0 <= q)%Q) vs -> (0 <= pd.Qsum vs)%Q.
Proof.
  induction 1 as [|v vs Hv _ IH]; simpl; [apply Qle_refl|].
  change 0%Q with (0 + 0)%Q at 1. by apply Qplus_le_compat.
Qed.

Lemma Qsum_pos vs j q :
  Forall (fun q => (0 <= q)%Q) vs -> vs !! j = Some q -> (0 < q)%Q ->
  (0 < pd.Qsum vs)%Q.
Proof.
  intros H. revert j. induction H as [|v vs Hv Hvs IH]; intros [|j] Hj Hq;
    simpl in *; try done.
  - injection Hj as ->. change 0%Q with (0 + 0)%Q at 1.
    apply Qplus_lt_le_compat; [done | by apply Qsum_nonneg].
  - rewrite Qplus_comm. change 0%Q with (0 + 0)%Q at 1.
    apply Qplus_lt_le_compat; [by apply (IH j) | done].
Qed.

Lemma mean_pos vs j q :
  Forall (fun q => (0 <= q)%Q) vs -> vs !! j = Some q -> (0 < q)%Q ->
  exists g, pd.mean vs = Fin g /\ (0 < g)%Q.
Proof.
  intros Hvs Hj Hq. pose proof (Qsum_pos vs j q Hvs Hj Hq) as Hsum.
  destruct vs as [|v vs]; [done|]. eexists; split; [reflexivity|].
  rewrite Qred_correct. apply Qmult_lt_0_compat; [done|].
  apply Qinv_lt_0_compat. unfold Qlt. simpl. lia.
Qed.

Section Increasing.

Variable qs : list Q.
Hypothesis Hinc : strictly_increasing qs.

Lemma gain_column_increasing i :
  i < length qs ->
  exists g, gain_column (Fin <$> qs) !! i = Some (Fin g) /\
            (0 <= g)%Q /\ (1 <= i -> (0 < g)%Q).
Proof using Hinc.
  intros Hi. unfold gain_column. rewrite lookup_where.
  destruct i as [|i].
  - destruct qs as [|q0 qs']; [simpl in Hi; lia|].
    rewrite fmap_cons, lookup_diff_0. exists 0%Q.
    repeat split; [apply Qle_refl | lia].
  - destruct (lookup_lt_is_Some_2 qs (S i) Hi) as [c Hc].
    destruct (lookup_lt_is_Some_2 qs i) as [p Hp]; [lia|].
    rewrite (lookup_diff_S _ i (Fin p) (Fin c))
      by (rewrite list_lookup_fmap; by rewrite ?Hp, ?Hc).
    assert (Hd : (0 < Qred (c + Qred (- p)))%Q).
    { rewrite !Qred_correct. rewrite <- (Qlt_minus_iff p c). eauto. }
    exists (Qred (c + Qred (- p))). simpl.
    unfold Num.gt. simpl. change (inject_Z 0) with 0%Q.
    rewrite (proj2 (Qltb_lt _ _) Hd).
    repeat split; [by apply Qlt_le_weak | done].
Qed.

Lemma loss_column_increasing i :
  i < length qs -> loss_column (Fin <$> qs) !! i = Some (Fin 0).
Proof using Hinc.
  intros Hi. unfold loss_column. rewrite list_lookup_fmap, lookup_where.
  destruct i as [|i].
  - destruct qs as [|q0 qs']; [simpl in Hi; lia|].
    by rewrite fmap_cons, lookup_diff_0.
  - destruct (lookup_lt_is_Some_2 qs (S i) Hi) as [c Hc].
    destruct (lookup_lt_is_Some_2 qs i) as [p Hp]; [lia|].
    rewrite (lookup_diff_S _ i (Fin p) (Fin c))
      by (rewrite list_lookup_fmap; by rewrite ?Hp, ?Hc).
    assert (Hd : (0 < Qred (c + Qred (- p)))%Q).
    { rewrite !Qred_correct. rewrite <- (Qlt_minus_iff p c). eauto. }
    simpl. change (inject_Z 0) with 0%Q.
    rewrite Qltb_ge; [done | by apply Qlt_le_weak].
Qed.

Lemma rsi_loss_increasing t :
  13 <= t -> t < length qs -> rsi_loss (Fin <$> qs) !! t = Some (Fin 0).
Proof using Hinc.
  intros H13 Ht. rewrite rsi_loss_unfold.
  rewrite lookup_rolling_trailing
    by (by rewrite length_loss_column, length_fmap).
  rewrite window_full by (rewrite ?length_loss_column, ?length_fmap; lia).
  set (win := take 14 (drop (S t - 14) (loss_column (Fin <$> qs)))).
  assert (Hwin : win = replicate 14 (Fin 0)).
  { symmetry. apply replicate_as_Forall. split.
    - apply length_window_column.
      rewrite length_loss_column, length_fmap. lia.
    - apply Forall_lookup_2. intros j x Hx.
      assert (Hj : j < 14).
      { apply lookup_lt_Some in Hx. unfold win in Hx.
        rewrite length_take in Hx. lia. }
      unfold win in Hx. rewrite lookup_window_column in Hx by done.
      rewrite loss_column_increasing in Hx by lia. congruence. }
  rewrite Hwin. reflexivity.
Qed.

Lemma rsi_gain_increasing t :
  13 <= t -> t < length qs ->
  exists g, rsi_gain (Fin <$> qs) !! t = Some (Fin g) /\ (0 < g)%Q.
Proof using Hinc.
  intros H13 Ht. rewrite rsi_gain_unfold.
  rewrite lookup_rolling_trailing
    by (by rewrite length_gain_column, length_fmap).
  rewrite window_full by (rewrite ?length_gain_column, ?length_fmap; lia).
  set (win := take 14 (drop (S t - 14) (gain_column (Fin <$> qs)))).
  assert (Hlook : forall j, j < 14 ->
            exists g, win !! j = Some (Fin g) /\ (0 <= g)%Q /\
                      (j = 13 -> (0 < g)%Q)).
  { intros j Hj. unfold win. rewrite lookup_window_column by done.
    destruct (gain_column_increasing (S t - 14 + j)) as (g & -> & Hg & Hpos);
      [lia|].
    exists g. repeat split; [done|]. intros ->. apply Hpos. lia. }
  assert (Hlen : length win = 14).
  { apply length_window_column.
    rewrite length_gain_column, length_fmap. lia. }
  destruct (finite_column win) as [vs Hvs].
  { intros j x Hx. pose proof (lookup_lt_Some _ _ _ Hx) as Hj.
    destruct (Hlook j) as (g & Hg & _); [lia|]. exists g. congruence. }
  rewrite Hvs, observations_Fin. simpl.
  destruct (Hlook 13) as (g & Hg & _ & Hpos); [lia|].
  rewrite Hvs, list_lookup_fmap in Hg.
  destruct (vs !! 13) as [g'|] eqn:Hg'; [|done].
  injection Hg as ->.
  destruct (mean_pos vs 13 g) as (m & -> & Hm); [|done|by apply Hpos|].
  - apply Forall_lookup_2. intros j q Hq.
    pose proof (lookup_lt_Some _ _ _ Hq) as Hj.
    assert (Hj' : j < 14) by (rewrite Hvs, length_fmap in Hlen; lia).
    destruct (Hlook j Hj') as (g' & Hgj & Hnn & _).
    rewrite Hvs, list_lookup_fmap, Hq in Hgj. by injection Hgj as ->.
  - by exists m.
Qed.

End Increasing.

(** C4 (as amended): a zero average loss together with a positive average
    gain gives an RSI of exactly 100, without any error; with a zero
    average gain as well, RSI is NaN; in particular a strictly increasing
    close series has RSI 100 at every index from 13 on, the first index
    whose 14-bar window is full.  (A negative zero as divisor would give
    minus infinity for RS, and the same RSI of 100.) *)
Theorem rsi_saturates :
  (forall close t g l,
      rsi_gain close !! t = Some (Fin g) ->
      rsi_loss close !! t = Some (Fin l) ->
      (l == 0)%Q -> (0 < g)%Q ->
      rsi close !! t = Some (Fin 100)) /\
  (forall close t g l,
      rsi_gain close !! t = Some (Fin g) ->
      rsi_loss close !! t = Some (Fin l) ->
      (l == 0)%Q -> (g == 0)%Q ->
      rsi close !! t = Some NaN) /\
  (forall qs t,
      strictly_increasing qs -> 13 <= t -> t < length qs ->
      rsi (Fin <$> qs) !! t = Some (Fin 100)).
Proof.
  split; [|split].
  - intros close t g l Hg Hl Hl0 Hg0.
    rewrite (lookup_rsi close t _ _ Hg Hl). f_equal.
    by apply rsi_of_rs_saturates.
  - intros close t g l Hg Hl Hl0 Hg0.
    rewrite (lookup_rsi close t _ _ Hg Hl). f_equal.
    by apply rsi_of_rs_flat.
  - intros qs t Hinc H13 Ht.
    destruct (rsi_gain_increasing qs Hinc t H13 Ht) as (g & Hg & Hg0).
    pose proof (rsi_loss_increasing qs Hinc t H13 Ht) as Hl.
    rewrite (lookup_rsi _ t _ _ Hg Hl). f_equal.
    by apply rsi_of_rs_saturates.
Qed.

Lemma ramp_increasing n : strictly_increasing (ramp n).
Proof.
  intros i p c Hp Hc. unfold ramp in *.
  rewrite list_lookup_fmap in Hp, Hc.
  destruct (seq 0 n !! i) as [a|] eqn:Ha; [|done].
  destruct (seq 0 n !! S i) as [b|] eqn:Hb; [|done].
  apply lookup_seq in Ha as [-> _]. apply lookup_seq in Hb as [-> _].
  simpl in Hp, Hc. injection Hp as <-. injection Hc as <-.
  unfold Qlt. simpl. lia.
Qed.

Lemma rsi_saturates_witness :
  rsi (Fin <$> ramp 16) !! 13 = Some (Fin 100) /\
  rsi (Fin <$> flat 15) !! 14 = Some NaN /\
  rsi (Fin <$> ramp 16) !! 15 = Some (Fin 100).
Proof.
  destruct rsi_saturates as (Hsat & Hflat & Hinc). split; [|split].
  - apply (Hsat (Fin <$> ramp 16) 13 (13 # 14)%Q 0%Q);
      [reflexivity | reflexivity | reflexivity | reflexivity].
  - apply (Hflat (Fin <$> flat 15) 14 0%Q 0%Q);
      [reflexivity | reflexivity | reflexivity | reflexivity].
  - apply (Hinc (ramp 16) 15); [apply ramp_increasing | lia | simpl; lia].
Defined.

(** The claim as first stated fails on a flat window: the average loss is
    zero, and so is the average gain, and RSI is NaN. *)
Lemma rsi_flat_window_not_100 :
  rsi_loss (Fin <$> flat 15) !! 14 = Some (Fin 0) /\
  rsi (Fin <$> flat 15) !! 14 = Some NaN /\
  rsi (Fin <$> flat 15) !! 14 <> Some (Fin 100).
Proof. repeat split; done. Qed.

(** ** MACD: the exponentially weighted mean in closed form *)

Lemma Qsum_ext {A} (f g : A -> Q) l :
  (forall i, f i == g i)%Q -> (pd.Qsum (f <$> l) == pd.Qsum (g <$> l))%Q.
Proof.
  intros H. induction l as [|x l IH]; [reflexivity|].
  csimpl. by rewrite H, IH.
Qed.

Lemma Qsum_scale {A} c (g : A -> Q) l :
  (pd.Qsum ((fun i => c * g i) <$> l) == c * pd.Qsum (g <$> l))%Q.
Proof.
  induction l as [|x l IH]; csimpl; [ring|]. rewrite IH. ring.
Qed.

Lemma Qsum_seq_S (f : nat -> Q) n :
  (pd.Qsum (f <$> seq 0 (S n)) ==
   f O + pd.Qsum ((fun i => f (S i)) <$> seq 0 n))%Q.
Proof.
  rewrite <- cons_seq, <- fmap_S_seq, fmap_cons, <- list_fmap_compose.
  reflexivity.
Qed.

Lemma wnum_0 a xs : (wnum a xs 0 == nth 0 xs 0)%Q.
Proof. unfold wnum. simpl. ring. Qed.

Lemma wden_0 a : (wden a 0 == 1)%Q.
Proof. unfold wden. simpl. ring. Qed.

Lemma wnum_S a xs t :
  (wnum a xs (S t) == nth (S t) xs 0 + (1 - a) * wnum a xs t)%Q.
Proof.
  unfold wnum. rewrite Qsum_seq_S, <- Qsum_scale.
  rewrite (Qsum_ext _ (fun i => (1 - a) * (Qpow (1 - a) i * nth (t - i) xs 0))%Q).
  - simpl. ring.
  - intros i. simpl. ring.
Qed.

Lemma wden_S a t : (wden a (S t) == 1 + (1 - a) * wden a t)%Q.
Proof.
  unfold wden. rewrite Qsum_seq_S, <- Qsum_scale. simpl. reflexivity.
Qed.

Lemma wden_pos a t : (0 <= 1 - a)%Q -> (0 < wden a t)%Q.
Proof.
  intros Ha. induction t as [|t IH]; [by rewrite wden_0|].
  rewrite wden_S. apply Qlt_le_trans with 1%Q; [done|].
  rewrite <- (Qplus_0_r 1) at 1. apply Qplus_le_compat; [apply Qle_refl|].
  apply Qmult_le_0_compat; [done | by apply Qlt_le_weak].
Qed.

(** One step on finite values: the running mean is renormalised by the
    weight carried so far. *)
Lemma ewm_step_finite a w W x :
  (0 <= W * (1 - a))%Q ->
  exists e,
    pd.ewm_step a (Fin w, W) (Fin x) = (Fin e, (W * (1 - a) + 1)%Q) /\
    (e == (W * (1 - a) * w + x) / (W * (1 - a) + 1))%Q.
Proof.
  intros HW. set (W' := (W * (1 - a))%Q) in *.
  assert (Hpos : (0 < W' + 1)%Q).
  { apply Qlt_le_trans with 1%Q; [done|].
    rewrite <- (Qplus_0_l 1) at 1. apply Qplus_le_compat; [done|apply Qle_refl]. }
  assert (Hne : ~ (W' + 1 == 0)%Q).
  { intros E. rewrite E in Hpos. by apply Qlt_irrefl in Hpos. }
  unfold pd.ewm_step. simpl. fold W'.
  destruct (Qeq_bool w x) eqn:Hwx.
  - exists w. split; [done|]. apply Qeq_bool_eq in Hwx. rewrite <- Hwx.
    field. done.
  - destruct (Qeq_bool (W' + 1) 0) eqn:Hz.
    { apply Qeq_bool_eq in Hz. done. }
    eexists. split; [reflexivity|]. by rewrite !Qred_correct.
Qed.

Lemma ewm_from_cons a st x xs :
  pd.ewm_from a st (x :: xs) =
  (pd.ewm_step a st x).1 :: pd.ewm_from a (pd.ewm_step a st x) xs.
Proof. reflexivity. Qed.

Lemma ewm_from_weighted a qs :
  (0 <= 1 - a)%Q ->
  forall rest k w W,
    drop (S k) qs = rest ->
    (w == ewm_weighted a qs k)%Q -> (W == wden a k)%Q ->
    forall j, j < length rest ->
      exists e, pd.ewm_from a (Fin w, W) (Fin <$> rest) !! j = Some (Fin e) /\
                (e == ewm_weighted a qs (S k + j))%Q.
Proof.
  intros Ha. induction rest as [|x rest IH]; intros k w W Hdrop Hw HW j Hj;
    [simpl in Hj; lia|].
  assert (Hx : nth (S k) qs 0%Q = x).
  { pose proof (lookup_drop qs (S k) 0) as H.
    rewrite Hdrop, Nat.add_0_r in H. simpl in H.
    by rewrite nth_lookup, <- H. }
  assert (Hrest : drop (S (S k)) qs = rest).
  { replace (S (S k)) with (S k + 1) by lia.
    by rewrite <- drop_drop, Hdrop. }
  pose proof (wden_pos a k Ha) as Hden.
  destruct (ewm_step_finite a w W x) as (e & Hstep & He).
  { rewrite HW. apply Qmult_le_0_compat; [by apply Qlt_le_weak | done]. }
  assert (He' : (e == ewm_weighted a qs (S k))%Q).
  { rewrite He, Hw, HW. unfold ewm_weighted.
    rewrite wnum_S, wden_S, Hx.
    pose proof (wden_pos a (S k) Ha) as HdenS. rewrite wden_S in HdenS.
    field. split.
    - intros E. rewrite E in HdenS. by apply Qlt_irrefl in HdenS.
    - intros E. rewrite E in Hden. by apply Qlt_irrefl in Hden. }
  assert (HW' : (W * (1 - a) + 1 == wden a (S k))%Q).
  { rewrite wden_S, HW. ring. }
  rewrite fmap_cons, ewm_from_cons, Hstep. cbn [fst].
  destruct j as [|j].
  - exists e. split; [done|]. by rewrite Nat.add_0_r.
  - simpl in Hj.
    destruct (IH (S k) e _ Hrest He' HW' j) as (e2 & Hl & He2); [lia|].
    exists e2. split; [done|].
    by replace (S k + S j) with (S (S k) + j) by lia.
Qed.

Lemma span_alpha_le_1 span : (1 <= span)%Z -> (0 <= 1 - (2 # Z.to_pos (span + 1)))%Q.
Proof.
  intros H. unfold Qle, Qminus, Qplus, Qopp. simpl.
  rewrite Z2Pos.id by lia. lia.
Qed.

(** On a column of finite values, [ewm(span).mean()] is the adjusted
    weighted mean at every index. *)
Lemma ewm_mean_weighted span qs t :
  (1 <= span)%Z -> t < length qs ->
  exists e,
    pd.ewm_mean span (Fin <$> qs) !! t = Some (Fin e) /\
    (e == ewm_weighted (2 # Z.to_pos (span + 1)) qs t)%Q.
Proof.
  intros Hspan Ht. destruct qs as [|q0 rest]; [simpl in Ht; lia|].
  set (a := (2 # Z.to_pos (span + 1))%Q).
  assert (Hseed : (q0 == ewm_weighted a (q0 :: rest) 0)%Q).
  { unfold ewm_weighted. rewrite wnum_0, wden_0. simpl. field. }
  rewrite fmap_cons. unfold pd.ewm_mean. fold a.
  destruct t as [|t]; [by exists q0|].
  simpl in Ht.
  destruct (ewm_from_weighted a (q0 :: rest) (span_alpha_le_1 span Hspan)
              rest 0 q0 1%Q eq_refl Hseed) with (j := t) as (e & He & Heq);
    [by rewrite wden_0 | lia |].
  by exists e.
Qed.

Lemma length_ewm_from a st xs : length (pd.ewm_from a st xs) = length xs.
Proof. revert st. induction xs; intros; simpl; auto. Qed.

Lemma length_ewm_mean span xs : length (pd.ewm_mean span xs) = length xs.
Proof. destruct xs; simpl; [done|]. by rewrite length_ewm_from. Qed.

Lemma ewm_mean_finite span qs :
  (1 <= span)%Z -> exists es, pd.ewm_mean span (Fin <$> qs) = Fin <$> es.
Proof.
  intros Hspan. apply finite_column. intros i x Hx.
  assert (Hi : i < length qs).
  { apply lookup_lt_Some in Hx.
    by rewrite length_ewm_mean, length_fmap in Hx. }
  destruct (ewm_mean_weighted span qs i Hspan Hi) as (e & He & _).
  exists e. congruence.
Qed.

Lemma length_macd close : length (macd close) = length close.
Proof.
  unfold macd. rewrite length_zip_with, !length_ewm_mean. lia.
Qed.

Lemma macd_finite qs :
  exists ms, macd (Fin <$> qs) = Fin <$> ms /\ length ms = length qs.
Proof.
  destruct (ewm_mean_finite 12 qs) as [e12 H12]; [lia|].
  destruct (ewm_mean_finite 26 qs) as [e26 H26]; [lia|].
  destruct (finite_column (macd (Fin <$> qs))) as [ms Hms].
  - intros i x. unfold macd. rewrite H12, H26, lookup_zip_with.
    rewrite !list_lookup_fmap.
    destruct (e12 !! i), (e26 !! i); simpl; try done.
    intros [= <-]. eauto.
  - exists ms. split; [done|].
    by rewrite <- (length_fmap Fin ms), <- Hms, length_macd, length_fmap.
Qed.

(** C3 (as amended): on a close series of finite values, MACD at [t] is
    EMA12[t] - EMA26[t] where the EMA of span [s] is the adjusted
    exponentially weighted mean, the sum of [(1-a)^i * close[t-i]] over the
    sum of [(1-a)^i] for [i = 0..t], with [a = 2/(s+1)]; at [t = 0] it is
    close[0].  MACD_Signal is the same mean, of span 9, of MACD, and
    MACD_Histogram is MACD - MACD_Signal at every [t]. *)
Theorem macd_adjusted_ewm Qsqrt (data : Frame) (qs : list Q) (t : nat) :
  Close data = Fin <$> qs -> t < length qs ->
  let d := indicators Qsqrt data in
  (forall a, ewm_weighted a qs 0 == nth 0 qs 0)%Q /\
  exists e12 e26 m ms s h,
    pd.ewm_mean 12 (Close data) !! t = Some (Fin e12) /\
    (e12 == ewm_weighted (2 # 13) qs t)%Q /\
    pd.ewm_mean 26 (Close data) !! t = Some (Fin e26) /\
    (e26 == ewm_weighted (2 # 27) qs t)%Q /\
    MACD d !! t = Some (Fin m) /\ (m == e12 - e26)%Q /\
    MACD d = Fin <$> ms /\
    MACD_Signal d !! t = Some (Fin s) /\
    (s == ewm_weighted (2 # 10) ms t)%Q /\
    MACD_Histogram d !! t = Some (Fin h) /\ (h == m - s)%Q.
Proof.
  intros Hclose Ht d. split.
  { intros a. unfold ewm_weighted. rewrite wnum_0, wden_0. field. }
  destruct (ewm_mean_weighted 12 qs t) as (e12 & H12 & Heq12); [lia|done|].
  destruct (ewm_mean_weighted 26 qs t) as (e26 & H26 & Heq26); [lia|done|].
  destruct (macd_finite qs) as (ms & Hms & Hlen).
  destruct (ewm_mean_weighted 9 ms t) as (s & Hs & Heqs); [lia|lia|].
  assert (Hm : MACD d !! t = Some (Fin e12 - Fin e26)%num).
  { unfold d, indicators, macd. simpl.
    by rewrite lookup_zip_with, Hclose, H12, H26. }
  assert (Hsig : MACD_Signal d !! t = Some (Fin s)).
  { unfold d, indicators. simpl. by rewrite Hclose, Hms. }
  exists e12, e26, (Qred (e12 + Qred (- e26))), ms, s.
  exists (Qred (Qred (e12 + Qred (- e26)) + Qred (- s))).
  rewrite Hclose. repeat split; try done.
  - by rewrite !Qred_correct.
  - unfold d, indicators. simpl. by rewrite Hclose.
  - change (MACD_Histogram d) with (zip_with Num.sub (MACD d) (MACD_Signal d)).
    by rewrite lookup_zip_with, Hm, Hsig.
  - by rewrite !Qred_correct.
Qed.

Lemma macd_adjusted_ewm_witness :
  let d := indicators Qsqrt_approx two_bars in
  (forall a, ewm_weighted a [100; 110] 0 == nth 0 [100; 110] 0)%Q /\
  exists e12 e26 m ms s h,
    pd.ewm_mean 12 (Close two_bars) !! 1 = Some (Fin e12) /\
    (e12 == ewm_weighted (2 # 13) [100; 110] 1)%Q /\
    pd.ewm_mean 26 (Close two_bars) !! 1 = Some (Fin e26) /\
    (e26 == ewm_weighted (2 # 27) [100; 110] 1)%Q /\
    MACD d !! 1 = Some (Fin m) /\ (m == e12 - e26)%Q /\
    MACD d = Fin <$> ms /\
    MACD_Signal d !! 1 = Some (Fin s) /\
    (s == ewm_weighted (2 # 10) ms 1)%Q /\
    MACD_Histogram d !! 1 = Some (Fin h) /\ (h == m - s)%Q.
Proof.
  apply (macd_adjusted_ewm Qsqrt_approx two_bars [100; 110]%Q 1);
    [reflexivity | simpl; lia].
Defined.

(** The recurrence of the claim as first stated gives another MACD: on the
    closes 100, 110 the engine has 35/156 at index 1, the recurrence
    280/351. *)
Lemma macd_is_not_the_recurrence :
  MACD (indicators Qsqrt_approx two_bars) !! 1 = Some (Fin (35 # 156)) /\
  Qred <$> macd_recurrence [100; 110]%Q !! 1 = Some (280 # 351)%Q /\
  ~ (35 # 156 == 280 # 351)%Q.
Proof. repeat split; done. Qed.

(** ** Trend analysis *)

Lemma length_rsi close : length (rsi close) = length close.
Proof.
  unfold rsi. rewrite length_fmap, length_zip_with.
  rewrite rsi_gain_unfold, rsi_loss_unfold, !length_rolling.
  rewrite length_gain_column, length_loss_column. lia.
Qed.

Lemma last_nonempty {A} (l : list A) : 0 < length l -> is_Some (last l).
Proof. intros H. apply last_is_Some. intros ->. simpl in H. lia. Qed.

(** After the engine ran on a frame with at least one bar, the latest row
    exists. *)
Lemma iloc_last_indicators Qsqrt data :
  wf_frame data -> Date data <> [] ->
  is_Some (iloc_last (indicators Qsqrt data)).
Proof.
  intros (Ho & Hh & Hl & Hc & Hv) Hne.
  assert (Hn : 0 < length (Date data)).
  { destruct (Date data); [done | simpl; lia]. }
  unfold iloc_last, indicators. simpl.
  repeat match goal with
  | |- is_Some (mbind _ (last ?col)) =>
      let x := fresh "x" in
      let Hx := fresh "Hx" in
      destruct (last_nonempty col) as [x Hx];
      [ rewrite ?length_zip_with, ?length_fmap, ?length_rolling,
          ?length_rsi, ?length_macd, ?length_ewm_mean, ?length_macd,
          ?length_pct_change, ?length_rolling; lia
      | rewrite Hx; simpl ]
  end.
  eauto.
Qed.

Lemma analyze_loop_spec items :
  NoDup items.*1 ->
  (forall sym d, (sym, d) ∈ items -> is_Some (iloc_last d)) ->
  forall results : gmap string Analysis,
  exists res,
    analyze_loop items results = Some res /\
    (forall sym d, (sym, d) ∈ items ->
       exists latest, iloc_last d = Some latest /\
                      res !! sym = Some (analyze_latest latest)) /\
    (forall sym, sym ∉ items.*1 -> res !! sym = results !! sym).
Proof.
  induction items as [|[symbol data] rest IH]; intros Hnd Hsome results.
  - exists results. split; [done|]. split; [|done]. intros sym d Hin.
    by apply elem_of_nil in Hin.
  - rewrite fmap_cons in Hnd. apply NoDup_cons in Hnd as [Hfresh Hnd].
    destruct (Hsome symbol data) as [latest Hlatest]; [by left|].
    destruct (IH Hnd) with (results := <[symbol := analyze_latest latest]> results)
      as (res & Hres & Hin & Hout).
    { intros sym d Hd. apply (Hsome sym d). by right. }
    exists res. split; [simpl; by rewrite Hlatest|]. split.
    + intros sym d Hd. apply elem_of_cons in Hd as [[= -> ->] | Hd].
      * exists latest. split; [done|].
        by rewrite (Hout symbol Hfresh), lookup_insert_eq.
      * by apply Hin.
    + intros sym Hsym. rewrite fmap_cons, not_elem_of_cons in Hsym.
      destruct Hsym as [Hne Hsym]. simpl in Hne.
      by rewrite (Hout sym Hsym), lookup_insert_ne.
Qed.

(** C1 (as amended): [analyze_trends] has no gate on undefined indicator
    values.  Whenever every fetched series has at least one bar, it ends
    normally and records a Signal Set for every symbol, computed from the
    latest row as it is, and it leaves the entries of other symbols as they
    were; no symbol is left out and no status is recorded. *)
Theorem analyze_trends_total Qsqrt (stock_data : gmap string Frame)
    (results : gmap string Analysis) :
  (forall sym data, stock_data !! sym = Some data ->
                    wf_frame data /\ Date data <> []) ->
  exists res,
    analyze_trends (calculate_technical_indicators Qsqrt stock_data) results
      = Some res /\
    (forall sym data, stock_data !! sym = Some data ->
       exists latest,
         iloc_last (indicators Qsqrt data) = Some latest /\
         res !! sym = Some (analyze_latest latest)) /\
    (forall sym, stock_data !! sym = None -> res !! sym = results !! sym).
Proof.
  intros Hwf. unfold analyze_trends, calculate_technical_indicators.
  set (frames := indicators Qsqrt <$> stock_data).
  destruct (analyze_loop_spec (map_to_list frames)) with (results := results)
    as (res & Hres & Hin & Hout).
  - apply NoDup_fst_map_to_list.
  - intros sym d Hd. apply elem_of_map_to_list in Hd.
    unfold frames in Hd. rewrite lookup_fmap in Hd.
    destruct (stock_data !! sym) as [data|] eqn:Hdata; [|done].
    simpl in Hd. injection Hd as <-.
    destruct (Hwf sym data Hdata). by apply iloc_last_indicators.
  - exists res. split; [done|]. split.
    + intros sym data Hdata. apply Hin, elem_of_map_to_list.
      unfold frames. by rewrite lookup_fmap, Hdata.
    + intros sym Hnone. apply Hout. intros Hsym.
      apply list_elem_of_fmap in Hsym as ([sym' d] & -> & Hd).
      apply elem_of_map_to_list in Hd. unfold frames in Hd.
      simpl in Hnone. by rewrite lookup_fmap, Hnone in Hd.
Qed.

Lemma analyze_trends_total_witness :
  exists res,
    analyze_trends
      (calculate_technical_indicators Qsqrt_approx {[ "TEN" := ten_bars ]}) ∅
      = Some res /\
    (forall sym data, ({[ "TEN" := ten_bars ]} : gmap string Frame) !! sym = Some data ->
       exists latest,
         iloc_last (indicators Qsqrt_approx data) = Some latest /\
         res !! sym = Some (analyze_latest latest)) /\
    (forall sym, ({[ "TEN" := ten_bars ]} : gmap string Frame) !! sym = None ->
                 res !! sym = (∅ : gmap string Analysis) !! sym).
Proof.
  apply (analyze_trends_total Qsqrt_approx {[ "TEN" := ten_bars ]} ∅).
  intros sym data H. apply lookup_singleton_Some in H as [_ <-].
  split; [repeat split | done].
Defined.

(** The claim as first stated fails on a 10-bar series: its latest row has
    no MA_50, MA_200, RSI, Bollinger bands or volatility, and the symbol is
    in the Analysis Result all the same, with a Signal Set and the
    recommendation Hold. *)
Lemma ten_bars_not_excluded :
  (exists latest,
      iloc_last (indicators Qsqrt_approx ten_bars) = Some latest /\
      r_MA_50 latest = NaN /\ r_MA_200 latest = NaN /\ r_RSI latest = NaN /\
      r_BB_Upper latest = NaN /\ r_BB_Lower latest = NaN /\
      r_Volatility latest = NaN) /\
  analyze_trends
    (calculate_technical_indicators Qsqrt_approx {[ "TEN" := ten_bars ]}) ∅
    ≫= (.!! "TEN") =
  Some (mkAnalysis "Bearish" NaN "Neutral" "Bullish" "Within normal range"
          0 "Hold" (Some (Fin 109)) (Some NaN)).
Proof.
  split.
  - eexists. split; [vm_compute; reflexivity|]. repeat split.
  - vm_compute. reflexivity.
Qed.

(** * Further properties of the Cleaner *)

Lemma ffill_from_gap prev xs i :
  i < length xs -> (forall k, k <= i -> xs !! k = Some NaN) ->
  pd.ffill_from prev xs !! i = Some prev.
Proof.
  revert i. induction xs as [|x xs IH]; intros i Hi Hgap; [simpl in Hi; lia|].
  pose proof (Hgap 0 ltac:(lia)) as H0. simpl in H0. injection H0 as ->.
  destruct i as [|i]; [done|]. simpl. apply IH; [simpl in Hi; lia|].
  intros k Hk. apply (Hgap (S k)). lia.
Qed.

Lemma ffill_from_nearest prev xs j i v :
  xs !! j = Some v -> Num.isna v = false -> j <= i -> i < length xs ->
  (forall k, j < k <= i -> xs !! k = Some NaN) ->
  pd.ffill_from prev xs !! i = Some v.
Proof.
  revert prev j i.
  induction xs as [|x xs IH]; intros prev j i Hj Hv Hji Hi Hgap; [done|].
  destruct j as [|j].
  - simpl in Hj. injection Hj as ->. simpl. rewrite Hv.
    destruct i as [|i]; [done|]. simpl.
    apply ffill_from_gap; [simpl in Hi; lia|].
    intros k Hk. apply (Hgap (S k)). lia.
  - destruct i as [|i]; [lia|]. simpl in *.
    apply (IH _ j); [done | done | lia | lia |].
    intros k Hk. apply (Hgap (S k)). lia.
Qed.

Lemma bfill_leading ys j v i :
  ys !! j = Some v -> Num.isna v = false ->
  (forall k, k < j -> ys !! k = Some NaN) -> i <= j ->
  pd.bfill ys !! i = Some v.
Proof.
  revert j i. induction ys as [|y ys IH]; intros j i Hj Hv Hgap Hij; [done|].
  destruct j as [|j].
  - assert (i = 0) as -> by lia. simpl in *. injection Hj as ->.
    by rewrite Hv.
  - pose proof (Hgap 0 ltac:(lia)) as H0. simpl in H0. injection H0 as ->.
    assert (Htail : forall i', i' <= j -> pd.bfill ys !! i' = Some v).
    { intros i' Hi'. apply (IH j); [done | done | | done].
      intros k Hk. apply (Hgap (S k)). lia. }
    destruct i as [|i]; simpl.
    + pose proof (Htail 0 ltac:(lia)) as H0.
      destruct (pd.bfill ys); [done|]. simpl in *. done.
    + apply Htail. lia.
Qed.

(** X1: the forward fill of the Cleaner gives a missing value the nearest
    earlier value that is present, and the backward fill leaves it there;
    a missing value with nothing present before it takes the first value
    that is present. *)
Theorem fill_policy (xs : list num) (j i : nat) (v : num) :
  xs !! j = Some v -> Num.isna v = false -> i < length xs ->
  (j <= i -> (forall k, j < k <= i -> xs !! k = Some NaN) ->
   pd.bfill (pd.ffill xs) !! i = Some v) /\
  (i <= j -> (forall k, k < j -> xs !! k = Some NaN) ->
   pd.bfill (pd.ffill xs) !! i = Some v).
Proof.
  intros Hj Hv Hi. split.
  - intros Hji Hgap. apply lookup_bfill_present; [|done].
    by apply ffill_from_nearest with j.
  - intros Hij Hgap. apply bfill_leading with j; [|done| |done].
    + apply ffill_from_nearest with j;
        [done | done | lia | by apply lookup_lt_Some in Hj |].
      intros k Hk. lia.
    + intros k Hk. apply ffill_from_gap.
      * apply lookup_lt_Some in Hj. lia.
      * intros k' Hk'. apply Hgap. lia.
Qed.

Lemma fill_policy_witness :
  pd.bfill (pd.ffill [NaN; Fin 7; NaN; NaN; Fin 9]) !! 3 = Some (Fin 7) /\
  pd.bfill (pd.ffill [NaN; Fin 7; NaN; NaN; Fin 9]) !! 0 = Some (Fin 7).
Proof.
  split.
  - destruct (fill_policy [NaN; Fin 7; NaN; NaN; Fin 9] 1 3 (Fin 7))
      as [H _]; [reflexivity | reflexivity | simpl; lia |].
    apply H; [lia|]. intros [|[|[|[|k]]]] Hk; (reflexivity || lia).
  - destruct (fill_policy [NaN; Fin 7; NaN; NaN; Fin 9] 1 0 (Fin 7))
      as [_ H]; [reflexivity | reflexivity | simpl; lia |].
    apply H; [lia|]. intros [|k] Hk; (reflexivity || lia).
Defined.

Lemma ffill_from_present_no_missing prev xs :
  Num.isna prev = false -> no_missing (pd.ffill_from prev xs).
Proof.
  revert prev. induction xs as [|x xs IH]; intros prev Hprev; [constructor|].
  simpl. destruct (Num.isna x) eqn:Hx; constructor;
    first [done | by apply IH].
Qed.

Lemma filled_column_no_missing xs :
  Exists (fun x => Num.isna x = false) xs ->
  no_missing (pd.bfill (pd.ffill xs)).
Proof.
  unfold pd.ffill. induction xs as [|x xs IH]; intros Hex.
  { by apply Exists_nil in Hex. }
  simpl. destruct (Num.isna x) eqn:Hx.
  - apply Exists_cons in Hex as [Hex|Hex]; [congruence|].
    specialize (IH Hex). simpl.
    destruct (pd.bfill (pd.ffill_from NaN xs)) as [|r rs] eqn:Hr.
    + apply (f_equal length) in Hr.
      rewrite length_bfill, length_ffill_from in Hr.
      destruct xs; [by apply Exists_nil in Hex | done].
    + simpl. constructor; [|done]. by apply Forall_cons in IH as [? _].
  - rewrite bfill_no_missing.
    + simpl. rewrite Hx. constructor; [done|].
      by apply ffill_from_present_no_missing.
    + by apply ffill_from_present_no_missing.
Qed.

Lemma filled_column_all_missing xs :
  Forall (fun x => x = NaN) xs -> pd.bfill (pd.ffill xs) = xs.
Proof.
  unfold pd.ffill. induction 1 as [|x xs -> Hxs IH]; [done|].
  simpl. rewrite IH. by destruct Hxs as [|y ys ->].
Qed.

(** X2: after the two fills a column has no missing value left as soon as
    it had one value present; a column with no value present stays as it
    is. *)
Theorem fill_complete (xs : list num) :
  (Exists (fun x => Num.isna x = false) xs ->
   no_missing (pd.bfill (pd.ffill xs))) /\
  (Forall (fun x => x = NaN) xs -> pd.bfill (pd.ffill xs) = xs).
Proof.
  split; [apply filled_column_no_missing | apply filled_column_all_missing].
Qed.

Lemma fill_complete_witness :
  no_missing (pd.bfill (pd.ffill [NaN; Fin 7; NaN; NaN; Fin 9])) /\
  pd.bfill (pd.ffill [NaN; NaN]) = [NaN; NaN].
Proof.
  split.
  - apply (fill_complete [NaN; Fin 7; NaN; NaN; Fin 9]).
    apply Exists_cons_tl, Exists_cons_hd. reflexivity.
  - apply (fill_complete [NaN; NaN]). repeat constructor.
Defined.

Lemma lookup_loc_assign_other mask value old i :
  mask !! i <> Some true -> pd.loc_assign mask value old !! i = old !! i.
Proof.
  revert value old i.
  induction mask as [|m mask IH]; intros [|v value] [|o old] [|i] Hm;
    simpl in *; try done.
  - by destruct m.
  - by apply IH.
Qed.

(** X3: smoothing writes flagged closes only: a close that is not flagged
    as an outlier leaves the Cleaner with the value the fills gave it. *)
Theorem cleaner_keeps_unflagged (data : Frame) (i : nat) :
  outlier_mask (Close (filled data)) !! i <> Some true ->
  Close (clean_frame data) !! i = Close (filled data) !! i.
Proof.
  intros Hm. unfold clean_frame. fold (filled data).
  destruct (0 <? _); [|done]. simpl. by apply lookup_loc_assign_other.
Qed.

Lemma cleaner_keeps_unflagged_witness :
  Close (clean_frame (frame_of_closes [100; 100; 180; 100; 100]%Q)) !! 3 =
  Close (filled (frame_of_closes [100; 100; 180; 100; 100]%Q)) !! 3.
Proof.
  apply (cleaner_keeps_unflagged
           (frame_of_closes [100; 100; 180; 100; 100]%Q) 3).
  vm_compute. discriminate.
Defined.

Lemma window3_values (xs : list num) t a b c :
  xs !! t = Some a -> xs !! S t = Some b -> xs !! S (S t) = Some c ->
  take 3 (drop t xs) = [a; b; c].
Proof.
  intros Ha Hb Hc.
  rewrite (drop_S _ _ _ Ha), (drop_S _ _ _ Hb), (drop_S _ _ _ Hc). done.
Qed.

Lemma lookup_rolling_center3 agg xs t :
  t < length xs ->
  pd.rolling 3 true agg xs !! t =
  Some (from_option agg NaN (pd.window 3 (t + 1) xs)).
Proof.
  intros Ht. unfold pd.rolling.
  by rewrite list_lookup_fmap, lookup_seq_lt by done.
Qed.

(** X4: a flagged close with a neighbour on each side is replaced by the
    mean of the three closes around it, taken before any smoothing. *)
Theorem cleaner_smooths_interior (data : Frame) (t : nat) (a b c : Q) :
  outlier_mask (Close (filled data)) !! S t = Some true ->
  Close (filled data) !! t = Some (Fin a) ->
  Close (filled data) !! S t = Some (Fin b) ->
  Close (filled data) !! S (S t) = Some (Fin c) ->
  exists m,
    Close (clean_frame data) !! S t = Some (Fin m) /\
    (m == (a + b + c) / 3)%Q.
Proof.
  intros Hm Ha Hb Hc. unfold clean_frame. fold (filled data).
  set (close := Close (filled data)) in *.
  pose proof (count_true_pos _ _ Hm) as Hpos.
  apply Nat.ltb_lt in Hpos. rewrite Hpos. simpl.
  pose proof (lookup_lt_Some _ _ _ Hc) as Hlen.
  exists (Qred ((a + (b + (c + 0))) / 3)). split.
  - apply lookup_loc_assign_true with (Fin b); [done | | done].
    rewrite lookup_rolling_center3 by lia.
    rewrite window_full by lia.
    replace (S (S t + 1) - 3) with t by lia.
    rewrite (window3_values close t _ _ _ Ha Hb Hc). reflexivity.
  - rewrite Qred_correct. field.
Qed.

Lemma cleaner_smooths_interior_witness :
  exists m,
    Close (clean_frame (frame_of_closes [100; 100; 180; 100; 100]%Q)) !! 2
      = Some (Fin m) /\
    (m == (100 + 180 + 100) / 3)%Q.
Proof.
  apply (cleaner_smooths_interior
           (frame_of_closes [100; 100; 180; 100; 100]%Q) 1 100 180 100);
    reflexivity.
Defined.

(** * Further properties of the Indicator Engine *)

Lemma clean_frame_wf data : wf_frame data -> wf_frame (clean_frame data).
Proof.
  intros (Ho & Hh & Hl & Hc & Hv).
  destruct (clean_frame_columns data) as (HD & HO & HH & HL & HV & HC).
  unfold wf_frame. rewrite HD, HO, HH, HL, HV, HC.
  by rewrite !length_bfill, !length_ffill.
Qed.

Lemma indicators_wf Qsqrt data :
  wf_frame data -> wf_iframe (indicators Qsqrt data).
Proof.
  intros Hwf. split; [done|].
  destruct Hwf as (_ & _ & _ & Hc & _). simpl.
  repeat constructor;
    rewrite ?length_zip_with, ?length_fmap, ?length_rolling, ?length_rsi,
      ?length_ewm_mean, ?length_macd, ?length_pct_change, ?length_rolling;
    lia.
Qed.

(** X5: cleaning and the engine keep the frame rectangular: after both,
    the dates are those of the input and every column, the eleven derived
    ones included, has one value per date. *)
Theorem pipeline_shape Qsqrt (data : Frame) :
  wf_frame data ->
  let d := indicators Qsqrt (clean_frame data) in
  Date (ohlcv d) = Date data /\ wf_iframe d.
Proof.
  intros Hwf d. split.
  - unfold d. simpl. by destruct (clean_frame_columns data) as (-> & _).
  - by apply indicators_wf, clean_frame_wf.
Qed.

Lemma pipeline_shape_witness :
  let d := indicators Qsqrt_approx (clean_frame gappy) in
  Date (ohlcv d) = Date gappy /\ wf_iframe d.
Proof. apply (pipeline_shape Qsqrt_approx gappy). by repeat split. Defined.

Lemma rolling_warmup w agg xs t :
  t < length xs -> S t < w -> pd.rolling w false agg xs !! t = Some NaN.
Proof.
  intros Ht Hw. rewrite lookup_rolling_trailing by done. unfold pd.window.
  by replace (w <=? S t) with false by (symmetry; apply Nat.leb_gt; lia).
Qed.

Lemma lookup_zip_with_Some_2 {A B C} (f : A -> B -> C) l k i x y :
  l !! i = Some x -> k !! i = Some y -> zip_with f l k !! i = Some (f x y).
Proof. intros Hx Hy. by rewrite lookup_zip_with, Hx, Hy. Qed.

(** X6: the windowed columns are NaN during their warm-up, whatever the
    closes are: MA_50 below index 49, MA_200 below 199, RSI below 13, the
    three Bollinger columns below 19 and Volatility below 29. *)
Theorem indicators_warmup Qsqrt (data : Frame) (t : nat) :
  t < length (Close data) ->
  let d := indicators Qsqrt data in
  (t < 49 -> MA_50 d !! t = Some NaN) /\
  (t < 199 -> MA_200 d !! t = Some NaN) /\
  (t < 13 -> RSI d !! t = Some NaN) /\
  (t < 19 -> BB_Middle d !! t = Some NaN /\ BB_Upper d !! t = Some NaN /\
             BB_Lower d !! t = Some NaN) /\
  (t < 29 -> Volatility d !! t = Some NaN).
Proof.
  intros Ht d. unfold d, indicators. simpl.
  refine (conj _ (conj _ (conj _ (conj _ _)))); intros Hw.
  - apply rolling_warmup; [done | lia].
  - apply rolling_warmup; [done | lia].
  - unfold rsi. rewrite list_lookup_fmap.
    destruct (lookup_lt_is_Some_2 (rsi_loss (Close data)) t) as [l Hl].
    { by rewrite rsi_loss_unfold, length_rolling, length_loss_column. }
    rewrite (lookup_zip_with_Some_2 _ _ _ t NaN l); [done | | done].
    rewrite rsi_gain_unfold. apply rolling_warmup; [|lia].
    by rewrite length_gain_column.
  - assert (Hmid : pd.rolling 20 false pd.mean (Close data) !! t = Some NaN)
      by (apply rolling_warmup; [done | lia]).
    assert (Hstd : ((fun s => s * Num.of_Z 2)%num
                      <$> pd.rolling 20 false (pd.std Qsqrt) (Close data))
                   !! t = Some NaN)
      by (rewrite list_lookup_fmap, rolling_warmup; [done | done | lia]).
    split; [done|].
    by rewrite !(lookup_zip_with_Some_2 _ _ _ t NaN NaN).
  - apply rolling_warmup; [done | lia].
Qed.

Lemma indicators_warmup_witness :
  let d := indicators Qsqrt_approx ten_bars in
  (9 < 49 -> MA_50 d !! 9 = Some NaN) /\
  (9 < 199 -> MA_200 d !! 9 = Some NaN) /\
  (9 < 13 -> RSI d !! 9 = Some NaN) /\
  (9 < 19 -> BB_Middle d !! 9 = Some NaN /\ BB_Upper d !! 9 = Some NaN /\
             BB_Lower d !! 9 = Some NaN) /\
  (9 < 29 -> Volatility d !! 9 = Some NaN).
Proof. apply (indicators_warmup Qsqrt_approx ten_bars 9). simpl. lia. Defined.

Lemma rolling_mean_finite w qs t :
  0 < w -> w <= S t -> t < length qs ->
  pd.rolling w false pd.mean (Fin <$> qs) !! t =
  Some (Fin (Qred (pd.Qsum (take w (drop (S t - w) qs))
                   / inject_Z (Z.of_nat w)))).
Proof.
  intros Hw Hwt Ht.
  rewrite lookup_rolling_trailing by (by rewrite length_fmap).
  rewrite window_full by (rewrite ?length_fmap; lia).
  rewrite <- fmap_drop, <- fmap_take, observations_Fin. simpl.
  assert (Hlen : length (take w (drop (S t - w) qs)) = w).
  { rewrite length_take, length_drop. lia. }
  destruct (take w (drop (S t - w) qs)) as [|v vs] eqn:Hwin;
    [simpl in Hlen; lia|].
  unfold pd.mean. by rewrite Hlen.
Qed.

(** X7: on finite closes, once 50 (200) bars exist MA_50 (MA_200) is the
    arithmetic mean of the 50 (200) closes that end at the current bar. *)
Theorem moving_average_mean Qsqrt (data : Frame) (qs : list Q) (t : nat) :
  Close data = Fin <$> qs -> t < length qs ->
  let d := indicators Qsqrt data in
  (49 <= t ->
   exists m, MA_50 d !! t = Some (Fin m) /\
             (m == pd.Qsum (take 50 (drop (t - 49) qs)) / 50)%Q) /\
  (199 <= t ->
   exists m, MA_200 d !! t = Some (Fin m) /\
             (m == pd.Qsum (take 200 (drop (t - 199) qs)) / 200)%Q).
Proof.
  intros Hclose Ht d. unfold d, indicators. simpl. rewrite Hclose.
  split; intros Hw; eexists;
    (split; [apply rolling_mean_finite; lia|]);
    rewrite Qred_correct.
  - by replace (S t - 50) with (t - 49) by lia.
  - by replace (S t - 200) with (t - 199) by lia.
Qed.

Lemma moving_average_mean_witness :
  exists m,
    MA_50 (indicators Qsqrt_approx (frame_of_closes (ramp 51))) !! 50
      = Some (Fin m) /\
    (m == pd.Qsum (take 50 (drop (50 - 49) (ramp 51))) / 50)%Q.
Proof.
  destruct (moving_average_mean Qsqrt_approx (frame_of_closes (ramp 51))
              (ramp 51) 50) as [H _]; [reflexivity | simpl; lia |].
  apply H. lia.
Defined.

Lemma gain_column_values close i x :
  gain_column close !! i = Some x -> nonneg_or_inf x.
Proof.
  unfold gain_column. rewrite lookup_where.
  destruct (pd.diff close !! i) as [d|]; [|done]. simpl. intros [= <-].
  destruct d as [q| | |]; simpl; unfold Num.gt; simpl.
  - change (inject_Z 0) with 0%Q. destruct (Qltb 0 q) eqn:Hq.
    + right. exists q. split; [done|]. by apply Qlt_le_weak, Qltb_lt.
    + right. exists 0%Q. split; [done | apply Qle_refl].
  - by left.
  - right. exists 0%Q. split; [done | apply Qle_refl].
  - right. exists 0%Q. split; [done | apply Qle_refl].
Qed.

Lemma loss_column_values close i x :
  loss_column close !! i = Some x -> nonneg_or_inf x.
Proof.
  unfold loss_column. rewrite list_lookup_fmap, lookup_where.
  destruct (pd.diff close !! i) as [d|]; [|done]. simpl. intros [= <-].
  destruct d as [q| | |]; simpl.
  - change (inject_Z 0) with 0%Q. destruct (Qltb q 0) eqn:Hq.
    + right. exists (Qred (- q)). split; [done|]. rewrite Qred_correct.
      apply Qltb_lt in Hq. apply Qlt_le_weak in Hq.
      apply Qopp_le_compat in Hq. done.
    + right. exists 0%Q. split; [done | apply Qle_refl].
  - right. exists 0%Q. split; [done | apply Qle_refl].
  - by left.
  - right. exists 0%Q. split; [done | apply Qle_refl].
Qed.

Lemma observations_Some win vs :
  pd.observations win = Some vs -> win = Fin <$> vs.
Proof.
  revert vs. induction win as [|x win IH]; intros vs; simpl.
  - by intros [= <-].
  - destruct x as [q| | |]; try done.
    destruct (pd.observations win) as [vs'|]; [|done].
    simpl. intros [= <-]. by rewrite (IH vs').
Qed.

Lemma mean_values vs :
  Forall (fun q => (0 <= q)%Q) vs ->
  pd.mean vs = NaN \/ exists m, pd.mean vs = Fin m /\ (0 <= m)%Q.
Proof.
  intros Hvs. destruct vs as [|v vs]; [by left|]. right.
  eexists. split; [reflexivity|]. rewrite Qred_correct.
  apply Qmult_le_0_compat; [by apply Qsum_nonneg|].
  apply Qinv_le_0_compat. unfold Qle. simpl. lia.
Qed.

Lemma rolling_mean_values w col t x :
  (forall i y, col !! i = Some y -> nonneg_or_inf y) ->
  pd.rolling w false pd.mean col !! t = Some x ->
  x = NaN \/ exists m, x = Fin m /\ (0 <= m)%Q.
Proof.
  intros Hcol Hx.
  assert (Ht : t < length col).
  { apply lookup_lt_Some in Hx. by rewrite length_rolling in Hx. }
  rewrite lookup_rolling_trailing in Hx by done. injection Hx as <-.
  unfold pd.window. destruct (_ && _); [|by left].
  destruct (pd.observations _) as [vs|] eqn:Hobs; [|by left].
  simpl. apply mean_values. apply observations_Some in Hobs.
  apply Forall_lookup_2. intros j q Hq.
  assert (Hwin : take w (drop (S t - w) col) !! j = Some (Fin q)).
  { by rewrite Hobs, list_lookup_fmap, Hq. }
  apply lookup_take_Some in Hwin as [Hwin _]. rewrite lookup_drop in Hwin.
  destruct (Hcol _ _ Hwin) as [|(q' & [= <-] & Hq')]; done.
Qed.

Lemma rsi_of_rs_finite r :
  (0 <= r)%Q ->
  exists v, rsi_of_rs (Fin r) = Fin v /\ (0 <= v)%Q /\ (v <= 100)%Q.
Proof.
  intros Hr.
  assert (Hpos : (0 < Qred (inject_Z 1 + r))%Q).
  { rewrite Qred_correct. apply Qlt_le_trans with 1%Q; [done|].
    rewrite <- (Qplus_0_r 1) at 1. by apply Qplus_le_r. }
  assert (Hne : Qeq_bool (Qred (inject_Z 1 + r)) 0 = false).
  { apply not_true_iff_false. intros E. apply Qeq_bool_eq in E.
    rewrite E in Hpos. by apply Qlt_irrefl in Hpos. }
  unfold rsi_of_rs. simpl. rewrite Hne.
  eexists. split; [reflexivity|].
  set (d := Qred (inject_Z 1 + r)) in *.
  assert (Hd : (1 <= d)%Q).
  { unfold d. rewrite Qred_correct. rewrite <- (Qplus_0_r 1) at 1.
    by apply Qplus_le_r. }
  assert (Hq : (0 <= 100 / d)%Q /\ (100 / d <= 100)%Q).
  { split.
    - apply Qle_shift_div_l; [done|]. rewrite Qmult_0_l. done.
    - apply Qle_shift_div_r; [done|].
      rewrite <- (Qmult_1_r 100) at 1. rewrite (Qmult_le_l _ _ 100); done. }
  destruct Hq as [Hq0 Hq100].
  change (inject_Z 100) with 100%Q. rewrite !Qred_correct. split.
  - by apply (Qle_minus_iff (100 / d) 100).
  - apply Qle_trans with (100 + 0)%Q; [|by rewrite Qplus_0_r].
    apply Qplus_le_r. apply (Qopp_le_compat 0 (100 / d)). done.
Qed.

Lemma rsi_of_rs_values g l :
  (0 <= g)%Q -> (0 <= l)%Q -> nan_or_within 0 100 (rsi_of_rs (Fin g / Fin l)).
Proof.
  intros Hg Hl. destruct (Qeq_bool l 0) eqn:Hl0.
  - apply Qeq_bool_eq in Hl0. destruct (Qlt_le_dec 0 g) as [Hpos|Hle].
    + right. exists 100%Q. split; [by apply rsi_of_rs_saturates|]. done.
    + left. apply rsi_of_rs_flat; [by apply Qle_antisym | done].
  - right. simpl. rewrite Hl0.
    destruct (rsi_of_rs_finite (Qred (g / l))) as (v & Hv & Hrange).
    { rewrite Qred_correct. apply Qmult_le_0_compat; [done|].
      by apply Qinv_le_0_compat. }
    exists v. done.
Qed.

(** X8: whatever the closes are, RSI at any index is NaN or a number
    between 0 and 100. *)
Theorem rsi_range (close : list num) (t : nat) (v : num) :
  rsi close !! t = Some v -> nan_or_within 0 100 v.
Proof.
  unfold rsi. rewrite list_lookup_fmap, lookup_zip_with.
  destruct (rsi_gain close !! t) as [g|] eqn:Hg; [|done].
  destruct (rsi_loss close !! t) as [l|] eqn:Hl; [|done].
  simpl. intros [= <-].
  apply (rolling_mean_values 14 _ _ _ (gain_column_values close)) in Hg.
  apply (rolling_mean_values 14 _ _ _ (loss_column_values close)) in Hl.
  destruct Hg as [-> | (g' & -> & Hg)]; [by left|].
  destruct Hl as [-> | (l' & -> & Hl)]; [by left|].
  by apply rsi_of_rs_values.
Qed.

Lemma rsi_range_witness :
  nan_or_within 0 100 (Fin (550 # 7)).
Proof.
  apply (rsi_range (Fin <$> [10; 11; 12; 11; 12; 13; 14; 13; 14; 15; 16; 15;
                             16; 17; 18]%Q) 14).
  vm_compute. reflexivity.
Defined.

Lemma rolling14_mean_zero col t :
  13 <= t -> t < length col ->
  (forall i, i < length col -> col !! i = Some (Fin 0)) ->
  pd.rolling 14 false pd.mean col !! t = Some (Fin 0).
Proof.
  intros H13 Ht Hcol.
  rewrite lookup_rolling_trailing, window_full by lia.
  set (win := take 14 (drop (S t - 14) col)).
  assert (Hwin : win = replicate 14 (Fin 0)).
  { symmetry. apply replicate_as_Forall. split.
    - apply length_window_column. lia.
    - apply Forall_lookup_2. intros j x Hx.
      assert (Hj : j < 14).
      { apply lookup_lt_Some in Hx. unfold win in Hx.
        rewrite length_take in Hx. lia. }
      unfold win in Hx. rewrite lookup_window_column in Hx by done.
      rewrite Hcol in Hx by lia. congruence. }
  rewrite Hwin. reflexivity.
Qed.

Lemma rolling14_mean_pos col t :
  13 <= t -> t < length col ->
  (forall i, i < length col ->
     exists g, col !! i = Some (Fin g) /\ (0 <= g)%Q /\ (1 <= i -> (0 < g)%Q)) ->
  exists m, pd.rolling 14 false pd.mean col !! t = Some (Fin m) /\ (0 < m)%Q.
Proof.
  intros H13 Ht Hcol.
  rewrite lookup_rolling_trailing, window_full by lia.
  set (win := take 14 (drop (S t - 14) col)).
  assert (Hlook : forall j, j < 14 ->
            exists g, win !! j = Some (Fin g) /\ (0 <= g)%Q /\
                      (j = 13 -> (0 < g)%Q)).
  { intros j Hj. unfold win. rewrite lookup_window_column by done.
    destruct (Hcol (S t - 14 + j)) as (g & -> & Hg & Hpos); [lia|].
    exists g. repeat split; [done|]. intros ->. apply Hpos. lia. }
  assert (Hlen : length win = 14) by (apply length_window_column; lia).
  destruct (finite_column win) as [vs Hvs].
  { intros j x Hx. pose proof (lookup_lt_Some _ _ _ Hx) as Hj.
    destruct (Hlook j) as (g & Hg & _); [lia|]. exists g. congruence. }
  rewrite Hvs, observations_Fin. simpl.
  destruct (Hlook 13) as (g & Hg & _ & Hpos); [lia|].
  rewrite Hvs, list_lookup_fmap in Hg.
  destruct (vs !! 13) as [g'|] eqn:Hg'; [|done].
  injection Hg as ->.
  destruct (mean_pos vs 13 g) as (m & -> & Hm); [|done|by apply Hpos|].
  - apply Forall_lookup_2. intros j q Hq.
    pose proof (lookup_lt_Some _ _ _ Hq) as Hj.
    assert (Hj' : j < 14) by (rewrite Hvs, length_fmap in Hlen; lia).
    destruct (Hlook j Hj') as (g' & Hgj & Hnn & _).
    rewrite Hvs, list_lookup_fmap, Hq in Hgj. by injection Hgj as ->.
  - by exists m.
Qed.

Section Decreasing.

Variable qs : list Q.
Hypothesis Hdec : strictly_decreasing qs.

Lemma delta_decreasing i p c :
  qs !! i = Some p -> qs !! S i = Some c -> (Qred (c + Qred (- p)) < 0)%Q.
Proof using Hdec.
  intros Hp Hc. pose proof (Hdec i p c Hp Hc) as H.
  apply Qlt_minus_iff, Qopp_lt_compat in H. rewrite !Qred_correct.
  assert (E : (c + - p == - (p + - c))%Q) by ring.
  rewrite E. exact H.
Qed.

Lemma gain_column_decreasing i :
  i < length qs -> gain_column (Fin <$> qs) !! i = Some (Fin 0).
Proof using Hdec.
  intros Hi. unfold gain_column. rewrite lookup_where.
  destruct i as [|i].
  - destruct qs as [|q0 qs']; [simpl in Hi; lia|].
    by rewrite fmap_cons, lookup_diff_0.
  - destruct (lookup_lt_is_Some_2 qs (S i) Hi) as [c Hc].
    destruct (lookup_lt_is_Some_2 qs i) as [p Hp]; [lia|].
    rewrite (lookup_diff_S _ i (Fin p) (Fin c))
      by (rewrite list_lookup_fmap; by rewrite ?Hp, ?Hc).
    pose proof (delta_decreasing i p c Hp Hc) as Hd.
    simpl. unfold Num.gt. simpl. change (inject_Z 0) with 0%Q.
    rewrite Qltb_ge; [done | by apply Qlt_le_weak].
Qed.

Lemma loss_column_decreasing i :
  i < length qs ->
  exists l, loss_column (Fin <$> qs) !! i = Some (Fin l) /\
            (0 <= l)%Q /\ (1 <= i -> (0 < l)%Q).
Proof using Hdec.
  intros Hi. unfold loss_column. rewrite list_lookup_fmap, lookup_where.
  destruct i as [|i].
  - destruct qs as [|q0 qs']; [simpl in Hi; lia|].
    rewrite fmap_cons, lookup_diff_0. exists 0%Q.
    repeat split; [apply Qle_refl | lia].
  - destruct (lookup_lt_is_Some_2 qs (S i) Hi) as [c Hc].
    destruct (lookup_lt_is_Some_2 qs i) as [p Hp]; [lia|].
    rewrite (lookup_diff_S _ i (Fin p) (Fin c))
      by (rewrite list_lookup_fmap; by rewrite ?Hp, ?Hc).
    pose proof (delta_decreasing i p c Hp Hc) as Hd.
    simpl. change (inject_Z 0) with 0%Q.
    rewrite (proj2 (Qltb_lt _ _) Hd). simpl.
    assert (Hl : (0 < Qred (- Qred (c + Qred (- p))))%Q).
    { rewrite Qred_correct. by apply Qopp_lt_compat in Hd. }
    eexists. repeat split; [by apply Qlt_le_weak | done].
Qed.

Lemma rsi_decreasing t :
  13 <= t -> t < length qs -> rsi (Fin <$> qs) !! t = Some (Fin 0).
Proof using Hdec.
  intros H13 Ht.
  assert (Hg : rsi_gain (Fin <$> qs) !! t = Some (Fin 0)).
  { rewrite rsi_gain_unfold. apply rolling14_mean_zero; [done | |].
    - by rewrite length_gain_column, length_fmap.
    - intros i. rewrite length_gain_column, length_fmap.
      apply gain_column_decreasing. }
  destruct (rolling14_mean_pos (loss_column (Fin <$> qs)) t)
    as (l & Hl & Hpos); [done | |  |].
  { by rewrite length_loss_column, length_fmap. }
  { intros i. rewrite length_loss_column, length_fmap.
    apply loss_column_decreasing. }
  rewrite (lookup_rsi _ t (Fin 0) (Fin l) Hg Hl). f_equal.
  simpl.
  assert (Hne : Qeq_bool l 0 = false).
  { apply not_true_iff_false. intros E. apply Qeq_bool_eq in E.
    rewrite E in Hpos. by apply Qlt_irrefl in Hpos. }
  rewrite Hne. rewrite (Qred_complete (0 / l) 0); [reflexivity|].
  unfold Qdiv. ring.
Qed.

End Decreasing.

(** X9: on a strictly decreasing series of finite closes RSI is exactly 0
    at every index from 13 on, and the RSI signal there is Oversold. *)
Theorem rsi_of_falling_series (qs : list Q) (t : nat) :
  strictly_decreasing qs -> 13 <= t -> t < length qs ->
  rsi (Fin <$> qs) !! t = Some (Fin 0) /\
  _get_rsi_signal <$> rsi (Fin <$> qs) !! t = Some "Oversold".
Proof.
  intros Hdec H13 Ht. rewrite (rsi_decreasing qs Hdec t H13 Ht). done.
Qed.

Lemma slope_down_decreasing n : strictly_decreasing (slope_down n).
Proof.
  intros i p c Hp Hc. unfold slope_down in *.
  rewrite list_lookup_fmap in Hp, Hc.
  destruct (seq 0 n !! i) as [a|] eqn:Ha; [|done].
  destruct (seq 0 n !! S i) as [b|] eqn:Hb; [|done].
  apply lookup_seq in Ha as [-> _]. apply lookup_seq in Hb as [-> _].
  simpl in Hp, Hc. injection Hp as <-. injection Hc as <-.
  unfold Qlt. simpl. lia.
Qed.

Lemma rsi_of_falling_series_witness :
  rsi (Fin <$> slope_down 16) !! 15 = Some (Fin 0) /\
  _get_rsi_signal <$> rsi (Fin <$> slope_down 16) !! 15 = Some "Oversold".
Proof.
  apply (rsi_of_falling_series (slope_down 16) 15);
    [apply slope_down_decreasing | lia | simpl; lia].
Defined.





(** X11: Price_Change_Pct is NaN at the first bar and, between two bars
    whose closes are numbers, the earlier one not zero, the relative move
    [(close[t+1] / close[t] - 1) * 100]. *)
Theorem price_change_pct Qsqrt (data : Frame) :
  let d := indicators Qsqrt data in
  (Close data <> [] -> Price_Change_Pct d !! 0 = Some NaN) /\
  (forall t p c,
      Close data !! t = Some (Fin p) -> Close data !! S t = Some (Fin c) ->
      ~ (p == 0)%Q ->
      exists v, Price_Change_Pct d !! S t = Some (Fin v) /\
                (v == (c / p - 1) * 100)%Q).
Proof.
  intros d. unfold d, indicators. simpl. split.
  - intros Hne. rewrite list_lookup_fmap.
    destruct (pct_change_0 (Close data)) as [Hnone | ->]; [|done].
    apply lookup_ge_None in Hnone. rewrite length_pct_change in Hnone.
    destruct (Close data); [done | simpl in Hnone; lia].
  - intros t p c Hp Hc Hp0. unfold pd.pct_change, pd.ffill.
    pose proof (lookup_ffill_from_present NaN _ _ _ Hp eq_refl) as Hfp.
    pose proof (lookup_ffill_from_present NaN _ _ _ Hc eq_refl) as Hfc.
    rewrite !list_lookup_fmap.
    rewrite (lookup_zip_with_Some_2 _ _ _ (S t) (Fin c) (Fin p));
      [|done|].
    + assert (Hz : Qeq_bool p 0 = false).
      { apply not_true_iff_false. intros E. by apply Qeq_bool_eq in E. }
      simpl. rewrite Hz.
      eexists. split; [reflexivity|]. rewrite !Qred_correct.
      change (inject_Z 100) with 100%Q. change (inject_Z 1) with 1%Q.
      unfold Qminus. reflexivity.
    + rewrite lookup_shift_S; [done|].
      apply lookup_lt_Some in Hc. by rewrite length_ffill_from.
Qed.

Lemma price_change_pct_witness :
  exists v,
    Price_Change_Pct (indicators Qsqrt_approx two_bars) !! 1 = Some (Fin v) /\
    (v == (110 / 100 - 1) * 100)%Q.
Proof.
  destruct (price_change_pct Qsqrt_approx two_bars) as [_ H].
  apply (H 0 100%Q 110%Q); [reflexivity | reflexivity | done].
Defined.

(** X12: MACD, MACD_Signal and MACD_Histogram have no warm-up: on finite
    closes they are numbers at every index, the first bar included. *)
Theorem macd_no_warmup Qsqrt (data : Frame) (qs : list Q) :
  Close data = Fin <$> qs ->
  let d := indicators Qsqrt data in
  exists ms ss hs,
    MACD d = Fin <$> ms /\ MACD_Signal d = Fin <$> ss /\
    MACD_Histogram d = Fin <$> hs /\
    length ms = length qs /\ length ss = length qs /\ length hs = length qs.
Proof.
  intros Hclose d. unfold d, indicators. simpl. rewrite Hclose.
  destruct (macd_finite qs) as (ms & Hms & Hlen).
  destruct (ewm_mean_finite 9 ms) as [ss Hss]; [lia|].
  assert (Hlss : length ss = length qs).
  { by rewrite <- (length_fmap Fin ss), <- Hss, length_ewm_mean, length_fmap. }
  rewrite Hms, Hss.
  destruct (finite_column (zip_with Num.sub (Fin <$> ms) (Fin <$> ss)))
    as [hs Hhs].
  { intros i x. rewrite lookup_zip_with, !list_lookup_fmap.
    destruct (ms !! i), (ss !! i); simpl; try done. intros [= <-]. eauto. }
  exists ms, ss, hs. repeat split; try done.
  rewrite <- (length_fmap Fin hs), <- Hhs, length_zip_with, !length_fmap. lia.
Qed.

Lemma macd_no_warmup_witness :
  let d := indicators Qsqrt_approx two_bars in
  exists ms ss hs,
    MACD d = Fin <$> ms /\ MACD_Signal d = Fin <$> ss /\
    MACD_Histogram d = Fin <$> hs /\
    length ms = length [100; 110]%Q /\ length ss = length [100; 110]%Q /\
    length hs = length [100; 110]%Q.
Proof.
  apply (macd_no_warmup Qsqrt_approx two_bars [100; 110]%Q). reflexivity.
Defined.

Lemma ewm_from_flat a c W n :
  pd.ewm_from a (Fin c, W) (replicate n (Fin c)) = replicate n (Fin c).
Proof.
  revert W. induction n as [|n IH]; intros W; [done|].
  simpl. rewrite (proj2 (Qeq_bool_iff c c)) by reflexivity. simpl.
  by rewrite IH.
Qed.

Lemma ewm_mean_flat span c n :
  pd.ewm_mean span (replicate n (Fin c)) = replicate n (Fin c).
Proof. destruct n as [|n]; [done|]. simpl. by rewrite ewm_from_flat. Qed.

Lemma zip_with_replicate {A B C} (f : A -> B -> C) n x y :
  zip_with f (replicate n x) (replicate n y) = replicate n (f x y).
Proof. induction n as [|n IH]; [done|]. simpl. by rewrite IH. Qed.

Lemma sub_self c : (Fin c - Fin c)%num = Fin 0.
Proof.
  simpl. f_equal. rewrite (Qred_complete (c + Qred (- c)) 0); [done|].
  rewrite Qred_correct. ring.
Qed.

Lemma iloc_last_fields d row :
  iloc_last d = Some row ->
  last (Close (ohlcv d)) = Some (r_Close row) /\
  last (MA_50 d) = Some (r_MA_50 row) /\
  last (MA_200 d) = Some (r_MA_200 row) /\
  last (RSI d) = Some (r_RSI row) /\
  last (MACD d) = Some (r_MACD row) /\
  last (MACD_Signal d) = Some (r_MACD_Signal row) /\
  last (BB_Upper d) = Some (r_BB_Upper row) /\
  last (BB_Lower d) = Some (r_BB_Lower row) /\
  last (Volatility d) = Some (r_Volatility row).
Proof.
  unfold iloc_last.
  repeat match goal with
  | |- context [mbind _ (last ?col)] => destruct (last col); simpl; [|done]
  end.
  by intros [= <-].
Qed.

(** X13: on a flat series of finite closes MACD, its signal line and the
    histogram are 0 at every bar, and since equality is not "greater" the
    MACD signal of the latest row is Bearish. *)
Theorem macd_of_flat_series Qsqrt (data : Frame) (c : Q) (n : nat) :
  Close data = replicate n (Fin c) ->
  let d := indicators Qsqrt data in
  MACD d = replicate n (Fin 0) /\
  MACD_Signal d = replicate n (Fin 0) /\
  MACD_Histogram d = replicate n (Fin 0) /\
  (forall row, iloc_last d = Some row -> _get_macd_signal row = "Bearish").
Proof.
  intros Hclose d.
  assert (Hm : MACD d = replicate n (Fin 0)).
  { unfold d, indicators, macd. simpl.
    by rewrite Hclose, !ewm_mean_flat, zip_with_replicate, sub_self. }
  assert (Hs : MACD_Signal d = replicate n (Fin 0)).
  { change (MACD_Signal d) with (pd.ewm_mean 9 (MACD d)).
    by rewrite Hm, ewm_mean_flat. }
  split; [done|]. split; [done|]. split.
  - change (MACD_Histogram d) with (zip_with Num.sub (MACD d) (MACD_Signal d)).
    by rewrite Hm, Hs, zip_with_replicate.
  - intros row Hrow.
    destruct (iloc_last_fields d row Hrow)
      as (_ & _ & _ & _ & Hlm & Hls & _).
    rewrite Hm in Hlm. rewrite Hs in Hls.
    assert (Hlast : forall x, last (replicate n (Fin 0)) = Some x -> x = Fin 0).
    { intros x Hx. rewrite last_lookup in Hx.
      apply lookup_replicate in Hx as [-> _]. done. }
    unfold _get_macd_signal.
    by rewrite (Hlast _ Hlm), (Hlast _ Hls).
Qed.

Lemma macd_of_flat_series_witness :
  let d := indicators Qsqrt_approx (frame_of_closes (flat 3)) in
  MACD d = replicate 3 (Fin 0) /\
  MACD_Signal d = replicate 3 (Fin 0) /\
  MACD_Histogram d = replicate 3 (Fin 0) /\
  (forall row, iloc_last d = Some row -> _get_macd_signal row = "Bearish").
Proof.
  apply (macd_of_flat_series Qsqrt_approx (frame_of_closes (flat 3)) 100 3).
  reflexivity.
Defined.

(** * Further properties of the trend analysis *)


Lemma analyze_loop_raises items sym d :
  (sym, d) ∈ items -> iloc_last d = None ->
  forall results, analyze_loop items results = None.
Proof.
  intros Hin Hnone.
  induction items as [|[symbol data] rest IH]; intros results.
  { by apply elem_of_nil in Hin. }
  simpl. apply elem_of_cons in Hin as [[= <- <-] | Hin].
  - by rewrite Hnone.
  - destruct (iloc_last data); [|done]. simpl. by apply IH.
Qed.



Lemma analyze_loop_all_rows items results res :
  analyze_loop items results = Some res ->
  forall sym d, (sym, d) ∈ items -> is_Some (iloc_last d).
Proof.
  intros Hres sym d Hin.
  destruct (iloc_last d) as [row|] eqn:Hrow; [by eexists|].
  by rewrite (analyze_loop_raises items sym d Hin Hrow results) in Hres.
Qed.

(** X15: a second run of [analyze_trends] on the same data changes
    nothing, and the symbols of the result are those of [stock_data]
    together with those already analysed. *)
Theorem analyze_trends_rerun (stock_data : gmap string IFrame)
    (results res : gmap string Analysis) :
  analyze_trends stock_data results = Some res ->
  analyze_trends stock_data res = Some res /\
  dom res = dom stock_data ∪ dom results.
Proof.
  unfold analyze_trends. intros Hres.
  pose proof (NoDup_fst_map_to_list stock_data) as Hnd.
  pose proof (analyze_loop_all_rows _ _ _ Hres) as Hrows.
  destruct (analyze_loop_spec _ Hnd Hrows results) as (r1 & Hr1 & Hin1 & Hout1).
  rewrite Hres in Hr1. injection Hr1 as <-.
  destruct (analyze_loop_spec _ Hnd Hrows res) as (r2 & Hr2 & Hin2 & Hout2).
  assert (Hkey : forall sym,
            sym ∈ (map_to_list stock_data).*1 <-> is_Some (stock_data !! sym)).
  { intros sym. rewrite list_elem_of_fmap. split.
    - intros ([s d] & -> & Hd). apply elem_of_map_to_list in Hd. by eexists.
    - intros [d Hd]. exists (sym, d). split; [done|].
      by apply elem_of_map_to_list. }
  split.
  - rewrite Hr2. f_equal. apply map_eq. intros sym.
    destruct (stock_data !! sym) as [d|] eqn:Hd.
    + assert (Hd' : (sym, d) ∈ map_to_list stock_data)
        by (by apply elem_of_map_to_list).
      destruct (Hin1 _ _ Hd') as (row1 & Hrow1 & ->).
      destruct (Hin2 _ _ Hd') as (row2 & Hrow2 & ->). congruence.
    + apply Hout2. rewrite Hkey, Hd. by intros [? ?].
  - apply set_eq. intros sym. rewrite elem_of_union, !elem_of_dom.
    destruct (stock_data !! sym) as [d|] eqn:Hd.
    + assert (Hd' : (sym, d) ∈ map_to_list stock_data)
        by (by apply elem_of_map_to_list).
      destruct (Hin1 _ _ Hd') as (row1 & Hrow1 & ->).
      split; [by left | by eexists].
    + rewrite Hout1 by (rewrite Hkey, Hd; by intros [? ?]).
      split; [by right | by intros [[? ?]|]].
Qed.

Lemma analyze_trends_rerun_witness :
  exists res,
    analyze_trends (indicators Qsqrt_approx <$> {[ "TEN" := ten_bars ]}) ∅
      = Some res /\
    analyze_trends (indicators Qsqrt_approx <$> {[ "TEN" := ten_bars ]}) res
      = Some res /\
    dom res = dom (indicators Qsqrt_approx <$> ({[ "TEN" := ten_bars ]}
                     : gmap string Frame)) ∪ dom (∅ : gmap string Analysis).
Proof.
  destruct (analyze_trends
              (indicators Qsqrt_approx <$> {[ "TEN" := ten_bars ]}) ∅)
    as [res|] eqn:Hres; [|by vm_compute in Hres].
  exists res. split; [done|].
  by apply (analyze_trends_rerun _ ∅ res).
Defined.

(** X16: in every Signal Set the recommendation agrees with the score: it
    contains "Buy" exactly for a score of 1 or more, "Sell" exactly for -1
    or less, and is "Hold" exactly for 0; the defensive default of the
    mapper is never what decides. *)
Theorem recommendation_follows_score (row : Row) :
  let a := _analyze_single_stock row in
  (-3 <= score a <= 3)%Z /\
  (str_in "Buy" (recommendation a) = true <-> (1 <= score a)%Z) /\
  (str_in "Sell" (recommendation a) = true <-> (score a <= -1)%Z) /\
  (String.eqb (recommendation a) "Hold" = true <-> score a = 0%Z).
Proof.
  intros a. unfold a, _analyze_single_stock. cbn [score recommendation].
  set (s := _calculate_composite_score _ _ _).
  assert (Hs : (-3 <= s <= 3)%Z) by apply composite_score_range.
  split; [done|].
  assert (Hcases : s = (-3)%Z \/ s = (-2)%Z \/ s = (-1)%Z \/ s = 0%Z \/
                   s = 1%Z \/ s = 2%Z \/ s = 3%Z) by lia.
  destruct Hcases as [-> | [-> | [-> | [-> | [-> | [-> | ->]]]]]];
    cbn; repeat split; intros; (done || lia).
Qed.

Lemma recommendation_label row :
  let r := recommendation (_analyze_single_stock row) in
  r = "Strong Buy" \/ r = "Buy" \/ r = "Hold" \/ r = "Sell" \/
  r = "Strong Sell".
Proof.
  unfold _analyze_single_stock. cbn [recommendation].
  set (s := _calculate_composite_score _ _ _).
  assert (Hs : (-3 <= s <= 3)%Z) by apply composite_score_range.
  assert (Hcases : s = (-3)%Z \/ s = (-2)%Z \/ s = (-1)%Z \/ s = 0%Z \/
                   s = 1%Z \/ s = 2%Z \/ s = 3%Z) by lia.
  destruct Hcases as [-> | [-> | [-> | [-> | [-> | [-> | ->]]]]]]; cbn; auto.
Qed.

Lemma three_way_count {A} (P Q R : A -> Prop)
    `{!forall a, Decision (P a), !forall a, Decision (Q a),
      !forall a, Decision (R a)} (l : list A) :
  Forall (fun a => (P a /\ ~ Q a /\ ~ R a) \/ (~ P a /\ Q a /\ ~ R a) \/
                   (~ P a /\ ~ Q a /\ R a)) l ->
  length (filter P l) + length (filter Q l) + length (filter R l) = length l.
Proof.
  induction 1 as [|a l Ha _ IH]; [done|].
  destruct Ha as [(HP & HQ & HR) | [(HP & HQ & HR) | (HP & HQ & HR)]].
  - rewrite (filter_cons_True P), (filter_cons_False Q),
      (filter_cons_False R) by done. simpl. lia.
  - rewrite (filter_cons_False P), (filter_cons_True Q),
      (filter_cons_False R) by done. simpl. lia.
  - rewrite (filter_cons_False P), (filter_cons_False Q),
      (filter_cons_True R) by done. simpl. lia.
Qed.

(** X17: over results that the trend analysis produced, the three counts
    of the executive summary of the report split the analysed symbols:
    Buy + Sell + Hold signals is the number of results, no symbol is
    counted twice or left out. *)
Theorem summary_counts_partition (analysis_results : gmap string Analysis) :
  (forall sym a, analysis_results !! sym = Some a ->
                 exists row, a = analyze_latest row) ->
  buy_signals analysis_results + sell_signals analysis_results
    + hold_signals analysis_results = size analysis_results.
Proof.
  intros Hres. unfold buy_signals, sell_signals, hold_signals.
  rewrite three_way_count.
  - by rewrite length_fmap, length_map_to_list.
  - apply Forall_forall. intros a Ha.
    apply list_elem_of_fmap in Ha as ([sym a'] & -> & Ha).
    apply elem_of_map_to_list in Ha. destruct (Hres _ _ Ha) as [row ->].
    change (recommendation (sym, analyze_latest row).2)
      with (recommendation (_analyze_single_stock row)).
    destruct (recommendation_label row) as [E | [E | [E | [E | E]]]];
      rewrite E; cbn; intuition congruence.
Qed.

Lemma summary_counts_partition_witness :
  buy_signals {[ "NAN" := analyze_latest all_nan_row ]}
  + sell_signals {[ "NAN" := analyze_latest all_nan_row ]}
  + hold_signals {[ "NAN" := analyze_latest all_nan_row ]}
  = size ({[ "NAN" := analyze_latest all_nan_row ]} : gmap string Analysis).
Proof.
  apply (summary_counts_partition {[ "NAN" := analyze_latest all_nan_row ]}).
  intros sym a H. apply lookup_singleton_Some in H as [_ <-].
  by exists all_nan_row.
Defined.

(** * Retrieval and the run of the four steps *)

Section FetchProperties.

Variable history : string -> string -> option Frame.

Lemma fetched_dec period symbol :
  (exists data, fetched history period symbol data) \/
  (forall data, ~ fetched history period symbol data).
Proof.
  unfold fetched. destruct (history symbol period) as [data|]; [|right].
  - destruct (df_empty data) eqn:He; [right | left; by exists data].
    intros data' [[= <-] He']. congruence.
  - by intros data' [? _].
Qed.

Lemma fetch_loop_spec symbols period :
  forall stock_data n stock_data' n',
    fetch_loop history symbols period stock_data n = (stock_data', n') ->
    (forall sym data, sym ∈ symbols -> fetched history period sym data ->
                      stock_data' !! sym = Some data) /\
    (forall sym, (sym ∉ symbols \/ forall data, ~ fetched history period sym data) ->
                 stock_data' !! sym = stock_data !! sym) /\
    n <= n' /\
    (n < n' <-> exists sym data, sym ∈ symbols /\ fetched history period sym data).
Proof.
  induction symbols as [|symbol rest IH];
    intros stock_data n stock_data' n' Hloop.
  { simpl in Hloop. injection Hloop as <- <-.
    split; [intros sym data Hin; by apply elem_of_nil in Hin|].
    split; [done|]. split; [done|]. split; [lia|].
    intros (sym & data & Hin & _). by apply elem_of_nil in Hin. }
  simpl in Hloop.
  destruct (fetched_dec period symbol) as [[data Hdata] | Hfail].
  - destruct Hdata as [Hh He]. rewrite Hh, He in Hloop. simpl in Hloop.
    destruct (IH _ _ _ _ Hloop) as (Hin & Hout & Hle & Hlt).
    split; [|split; [|split]].
    + intros sym d Hsym Hd.
      destruct (decide (sym ∈ rest)) as [Hrest|Hrest]; [by apply Hin|].
      apply elem_of_cons in Hsym as [->|]; [|done].
      destruct Hd as [Hd _]. rewrite Hh in Hd. injection Hd as <-.
      rewrite Hout by (by left). apply lookup_insert_eq.
    + intros sym [Hsym | Hsym].
      * apply not_elem_of_cons in Hsym as [Hne Hsym].
        rewrite Hout by (by left). by apply lookup_insert_ne.
      * destruct (decide (sym = symbol)) as [->|Hne].
        { exfalso. by apply (Hsym data). }
        rewrite Hout by (by right). by apply lookup_insert_ne.
    + lia.
    + split; [|lia]. intros _. exists symbol, data.
      split; [by left | done].
  - assert (Hloop' : fetch_loop history rest period stock_data n
                     = (stock_data', n')).
    { destruct (history symbol period) as [data|] eqn:Hh; [|done].
      destruct (df_empty data) eqn:He; [done|].
      exfalso. by apply (Hfail data). }
    destruct (IH _ _ _ _ Hloop') as (Hin & Hout & Hle & Hlt).
    split; [|split; [|split]].
    + intros sym d Hsym Hd. apply elem_of_cons in Hsym as [->|Hsym].
      * exfalso. by apply (Hfail d).
      * by apply Hin.
    + intros sym [Hsym | Hsym].
      * apply not_elem_of_cons in Hsym as [_ Hsym]. apply Hout. by left.
      * apply Hout. by right.
    + done.
    + rewrite Hlt. split.
      * intros (sym & d & Hsym & Hd). exists sym, d. split; [by right|done].
      * intros (sym & d & Hsym & Hd). exists sym, d. split; [|done].
        apply elem_of_cons in Hsym as [->|]; [|done].
        exfalso. by apply (Hfail d).
Qed.

(** X18: [fetch_stock_data] stores exactly the frames that were retrieved
    with at least one row, under their symbols; for every other symbol
    (not requested, failed, or retrieved empty) it leaves [stock_data] as
    it was, an older frame included; and it returns true exactly when one
    requested symbol was retrieved with at least one row. *)
Theorem fetch_stock_data_spec (stocks : list (string * string))
    (period : string) (stock_data : gmap string Frame) :
  let r := fetch_stock_data history stocks period stock_data in
  (forall sym data, sym ∈ stocks.*1 -> fetched history period sym data ->
                    r.1 !! sym = Some data) /\
  (forall sym, (sym ∉ stocks.*1 \/ forall data, ~ fetched history period sym data) ->
               r.1 !! sym = stock_data !! sym) /\
  (r.2 = true <->
   exists sym data, sym ∈ stocks.*1 /\ fetched history period sym data).
Proof.
  unfold fetch_stock_data.
  destruct (fetch_loop history stocks.*1 period stock_data 0)
    as [sd n] eqn:Hloop. simpl.
  destruct (fetch_loop_spec _ _ _ _ _ _ Hloop) as (Hin & Hout & _ & Hlt).
  split; [done|]. split; [done|]. by rewrite Nat.ltb_lt.
Qed.


End FetchProperties.





Lemma fetch_stock_data_spec_witness :
  (fetch_stock_data demo_history
     [("TEN", "Ten bars"); ("NONE", "No data"); ("FAIL", "Fails")]
     "1y" {[ "NONE" := spike_at_end ]}).1 !! "TEN" = Some ten_bars /\
  (fetch_stock_data demo_history
     [("TEN", "Ten bars"); ("NONE", "No data"); ("FAIL", "Fails")]
     "1y" {[ "NONE" := spike_at_end ]}).1 !! "NONE" = Some spike_at_end.
Proof.
  destruct (fetch_stock_data_spec demo_history
              [("TEN", "Ten bars"); ("NONE", "No data"); ("FAIL", "Fails")]
              "1y" {[ "NONE" := spike_at_end ]}) as (Hin & Hout & _).
  split.
  - apply Hin; [by left | by split].
  - rewrite Hout; [done|]. right. intros data [[= <-] He]. done.
Defined.


(** * A rising series, from the closes to the recommendation *)

Lemma increasing_lt qs i j p c :
  strictly_increasing qs -> i < j ->
  qs !! i = Some p -> qs !! j = Some c -> (p < c)%Q.
Proof.
  intros Hinc Hij Hp. revert c. induction Hij as [|j Hij IH]; intros c Hc.
  - by apply (Hinc i).
  - destruct (lookup_lt_is_Some_2 qs j) as [m Hm].
    { apply lookup_lt_Some in Hc. lia. }
    apply Qlt_trans with m; [by apply IH | by apply (Hinc j)].
Qed.

Lemma inject_Z_length_cons {A} (v : A) vs :
  (inject_Z (Z.of_nat (length (v :: vs)))
   == inject_Z (Z.of_nat (length vs)) + 1)%Q.
Proof.
  simpl length. by rewrite Nat2Z.inj_succ, <- Z.add_1_r, inject_Z_plus.
Qed.

Lemma Qsum_app vs ws : (pd.Qsum (vs ++ ws) == pd.Qsum vs + pd.Qsum ws)%Q.
Proof.
  induction vs as [|v vs IH]; simpl; [ring|]. rewrite IH. ring.
Qed.

Lemma Qsum_lower vs a :
  Forall (fun q => (a <= q)%Q) vs ->
  (inject_Z (Z.of_nat (length vs)) * a <= pd.Qsum vs)%Q.
Proof.
  induction 1 as [|v vs Hv _ IH];
    [cbn; change (inject_Z (Z.of_nat 0)) with 0%Q; lra|].
  rewrite inject_Z_length_cons.
  change (pd.Qsum (v :: vs)) with (v + pd.Qsum vs)%Q.
  set (n := inject_Z _) in *. set (s := pd.Qsum vs) in *. lra.
Qed.

Lemma Qsum_upper vs b :
  Forall (fun q => (q <= b)%Q) vs ->
  (pd.Qsum vs <= inject_Z (Z.of_nat (length vs)) * b)%Q.
Proof.
  induction 1 as [|v vs Hv _ IH];
    [cbn; change (inject_Z (Z.of_nat 0)) with 0%Q; lra|].
  rewrite inject_Z_length_cons.
  change (pd.Qsum (v :: vs)) with (v + pd.Qsum vs)%Q.
  set (n := inject_Z _) in *. set (s := pd.Qsum vs) in *. lra.
Qed.

Lemma Qsum_upper_strict vs b :
  Forall (fun q => (q <= b)%Q) vs -> Exists (fun q => (q < b)%Q) vs ->
  (pd.Qsum vs < inject_Z (Z.of_nat (length vs)) * b)%Q.
Proof.
  induction 1 as [|v vs Hv Hvs IH]; intros Hex.
  { by apply Exists_nil in Hex. }
  rewrite inject_Z_length_cons.
  change (pd.Qsum (v :: vs)) with (v + pd.Qsum vs)%Q.
  apply Exists_cons in Hex as [Hlt | Hex].
  - pose proof (Qsum_upper vs b Hvs) as Hle.
    set (n := inject_Z _) in *. set (s := pd.Qsum vs) in *. lra.
  - specialize (IH Hex).
    set (n := inject_Z _) in *. set (s := pd.Qsum vs) in *. lra.
Qed.

Section Rising.

Variable qs : list Q.
Hypothesis Hinc : strictly_increasing qs.
Hypothesis Hlen : 200 <= length qs.

(** The index of the latest bar. *)
Let t := Nat.pred (length qs).

Lemma rising_close_above_ma50 c :
  qs !! t = Some c ->
  (pd.Qsum (take 50 (drop (S t - 50) qs)) / 50 < c)%Q.
Proof using Hinc Hlen.
  intros Hc. set (win := take 50 (drop (S t - 50) qs)).
  assert (Hwlen : length win = 50).
  { unfold win, t. rewrite length_take, length_drop. lia. }
  assert (Hlook : forall j, j < 50 -> win !! j = qs !! (S t - 50 + j)).
  { intros j Hj. unfold win. by rewrite lookup_take_lt, lookup_drop. }
  assert (Hup : Forall (fun q => (q <= c)%Q) win).
  { apply Forall_lookup_2. intros j q Hq.
    assert (Hj : j < 50) by (apply lookup_lt_Some in Hq; lia).
    rewrite Hlook in Hq by done.
    destruct (decide (S t - 50 + j = t)) as [E|E].
    - rewrite E, Hc in Hq. injection Hq as ->. apply Qle_refl.
    - apply Qlt_le_weak, (increasing_lt qs (S t - 50 + j) t); try done.
      unfold t in *. lia. }
  assert (Hex : Exists (fun q => (q < c)%Q) win).
  { destruct (lookup_lt_is_Some_2 win 0) as [q Hq]; [lia|].
    apply Exists_exists. exists q. split.
    - by apply list_elem_of_lookup_2 with 0.
    - rewrite Hlook in Hq by lia.
      apply (increasing_lt qs (S t - 50 + 0) t); try done.
      unfold t. lia. }
  pose proof (Qsum_upper_strict win c Hup Hex) as Hsum.
  rewrite Hwlen in Hsum. change (inject_Z (Z.of_nat 50)) with 50%Q in Hsum.
  apply Qlt_shift_div_r; [reflexivity | lra].
Qed.

Lemma rising_ma50_above_ma200 :
  (pd.Qsum (take 200 (drop (S t - 200) qs)) / 200
   < pd.Qsum (take 50 (drop (S t - 50) qs)) / 50)%Q.
Proof using Hinc Hlen.
  set (k := S t - 200).
  assert (Hk : S t - 50 = k + 150) by (unfold k, t; lia).
  rewrite Hk, <- (drop_drop qs 150 k).
  change 200 with (150 + 50) at 1.
  rewrite <- (take_take_drop (drop k qs) 150 50), Qsum_app.
  set (old := take 150 (drop k qs)).
  set (win := take 50 (drop 150 (drop k qs))).
  destruct (lookup_lt_is_Some_2 qs (k + 150)) as [a Ha];
    [unfold k, t; lia|].
  assert (Hold : Forall (fun q => (q <= a)%Q) old /\
                 Exists (fun q => (q < a)%Q) old /\ length old = 150).
  { assert (Hl : length old = 150).
    { unfold old, k, t. rewrite length_take, length_drop. lia. }
    assert (Hlt : forall j q, old !! j = Some q -> (q < a)%Q).
    { intros j q Hq.
      assert (Hj : j < 150) by (apply lookup_lt_Some in Hq; lia).
      unfold old in Hq. rewrite lookup_take_lt, lookup_drop in Hq by done.
      apply (increasing_lt qs (k + j) (k + 150)); try done. lia. }
    split; [|split; [|done]].
    - apply Forall_lookup_2. intros j q Hq. by apply Qlt_le_weak, (Hlt j).
    - destruct (lookup_lt_is_Some_2 old 0) as [q Hq]; [lia|].
      apply Exists_exists. exists q. split; [|by apply (Hlt 0)].
      by apply list_elem_of_lookup_2 with 0. }
  destruct Hold as (Hup & Hex & Hl).
  assert (Hwin : Forall (fun q => (a <= q)%Q) win /\ length win = 50).
  { split.
    - apply Forall_lookup_2. intros j q Hq.
      assert (Hj : j < 50) by (apply lookup_lt_Some in Hq;
                               unfold win in Hq; rewrite length_take in Hq; lia).
      unfold win in Hq.
      rewrite lookup_take_lt, !lookup_drop in Hq by done.
      destruct j as [|j].
      + rewrite Nat.add_0_r, Ha in Hq. injection Hq as ->. apply Qle_refl.
      + apply Qlt_le_weak, (increasing_lt qs (k + 150) (k + (150 + S j)));
          try done. lia.
    - unfold win, k, t. rewrite length_take, !length_drop. lia. }
  destruct Hwin as [Hlow Hl'].
  pose proof (Qsum_upper_strict old a Hup Hex) as H1.
  pose proof (Qsum_lower win a Hlow) as H2.
  rewrite Hl in H1. rewrite Hl' in H2.
  change (inject_Z (Z.of_nat 150)) with 150%Q in H1.
  change (inject_Z (Z.of_nat 50)) with 50%Q in H2.
  apply Qlt_shift_div_r; [reflexivity|].
  assert (E : (pd.Qsum win / 50 * 200 == 4 * pd.Qsum win)%Q) by field.
  rewrite E. lra.
Qed.

End Rising.

Lemma last_column_lookup {A} (col : list A) n x :
  length col = n -> last col = Some x -> col !! Nat.pred n = Some x.
Proof. intros <- Hx. by rewrite <- last_lookup. Qed.

(** X20: a strictly rising series of at least 200 finite closes is rated
    from its latest row as follows: the close is above MA_50 and MA_50
    above MA_200, so the MA signal is Strong Bullish; RSI is 100, so the
    RSI signal is Overbought and takes one point off; the score is 2 with
    a Bullish MACD and 0 with a Bearish one.  The recommendation is Strong
    Buy or Hold, and the score never reaches 3. *)
Theorem rising_series_rating Qsqrt (data : Frame) (qs : list Q) :
  wf_frame data -> Close data = Fin <$> qs ->
  strictly_increasing qs -> 200 <= length qs ->
  exists row,
    iloc_last (indicators Qsqrt data) = Some row /\
    let a := _analyze_single_stock row in
    ma_signal a = "Strong Bullish" /\
    rsi_value a = Fin 100 /\ rsi_signal a = "Overbought" /\
    ((macd_signal a = "Bullish" /\ score a = 2%Z /\
      recommendation a = "Strong Buy") \/
     (macd_signal a = "Bearish" /\ score a = 0%Z /\
      recommendation a = "Hold")).
Proof.
  intros Hwf Hclose Hinc Hlen.
  assert (Hn : length (Close data) = length qs)
    by (by rewrite Hclose, length_fmap).
  destruct (iloc_last_indicators Qsqrt data Hwf) as [row Hrow].
  { destruct Hwf as (_ & _ & _ & Hc & _). intros E.
    rewrite E in Hc. simpl in Hc. lia. }
  exists row. split; [done|].
  destruct (iloc_last_fields _ row Hrow)
    as (Hlc & Hl50 & Hl200 & Hlrsi & _).
  set (t := Nat.pred (length qs)).
  assert (Ht : t < length qs) by (unfold t; lia).
  destruct (lookup_lt_is_Some_2 qs t Ht) as [c Hc].
  (* the latest close *)
  apply (last_column_lookup _ (length qs)) in Hlc; [|done].
  simpl in Hlc. rewrite Hclose, list_lookup_fmap in Hlc. fold t in Hlc.
  rewrite Hc in Hlc. injection Hlc as Hlc.
  (* the two moving averages *)
  apply (last_column_lookup _ (length qs)) in Hl50;
    [|by rewrite <- Hn; apply length_rolling].
  apply (last_column_lookup _ (length qs)) in Hl200;
    [|by rewrite <- Hn; apply length_rolling].
  fold t in Hl50, Hl200. unfold indicators in Hl50, Hl200.
  simpl in Hl50, Hl200. rewrite Hclose in Hl50, Hl200.
  rewrite rolling_mean_finite in Hl50 by lia.
  rewrite rolling_mean_finite in Hl200 by lia.
  injection Hl50 as Hl50. injection Hl200 as Hl200.
  (* RSI *)
  apply (last_column_lookup _ (length qs)) in Hlrsi;
    [|by rewrite <- Hn; apply length_rsi].
  fold t in Hlrsi. unfold indicators in Hlrsi. simpl in Hlrsi.
  rewrite Hclose in Hlrsi.
  destruct (rsi_gain_increasing qs Hinc t) as (g & Hg & Hg0); [lia|done|].
  pose proof (rsi_loss_increasing qs Hinc t ltac:(lia) Ht) as Hl.
  rewrite (lookup_rsi _ t _ _ Hg Hl) in Hlrsi.
  rewrite rsi_of_rs_saturates in Hlrsi by done.
  injection Hlrsi as Hlrsi.
  (* the signals *)
  pose proof (rising_close_above_ma50 qs Hinc Hlen c Hc) as Habove.
  pose proof (rising_ma50_above_ma200 qs Hinc Hlen) as Hcross.
  fold t in Habove, Hcross.
  assert (Hma : _get_ma_signal row = "Strong Bullish").
  { unfold _get_ma_signal. rewrite <- Hlc, <- Hl50, <- Hl200.
    unfold Num.gt. simpl.
    rewrite (proj2 (Qltb_lt _ _)) by (by rewrite Qred_correct).
    rewrite (proj2 (Qltb_lt _ _)) by (by rewrite !Qred_correct).
    done. }
  assert (Hrs : _get_rsi_signal (r_RSI row) = "Overbought")
    by (by rewrite <- Hlrsi).
  unfold _analyze_single_stock.
  cbn [ma_signal rsi_value rsi_signal macd_signal score recommendation].
  rewrite Hma, Hrs, <- Hlrsi.
  split; [done|]. split; [done|]. split; [done|].
  unfold _get_macd_signal. destruct (_ >? _)%num; [left | right]; done.
Qed.

Lemma rising_series_rating_witness :
  exists row,
    iloc_last (indicators Qsqrt_approx (frame_of_closes (ramp 200)))
      = Some row /\
    let a := _analyze_single_stock row in
    ma_signal a = "Strong Bullish" /\
    rsi_value a = Fin 100 /\ rsi_signal a = "Overbought" /\
    ((macd_signal a = "Bullish" /\ score a = 2%Z /\
      recommendation a = "Strong Buy") \/
     (macd_signal a = "Bearish" /\ score a = 0%Z /\
      recommendation a = "Hold")).
Proof.
  apply (rising_series_rating Qsqrt_approx (frame_of_closes (ramp 200))
           (ramp 200)).
  - unfold wf_frame, frame_of_closes, ramp.
    cbn [Date Open High Low Close Volume].
    by rewrite !length_fmap, !length_seq.
  - reflexivity.
  - apply ramp_increasing.
  - unfold ramp. rewrite length_fmap, length_seq. lia.
Defined.

(** * The sector section of the report *)

Lemma split_from_cons sep skip cur s :
  exists x l, split_from sep skip cur s = x :: l.
Proof.
  revert skip cur. induction s as [|ch rest IH]; intros skip cur;
    cbn [split_from].
  - by eexists _, _.
  - destruct skip as [|k]; [|apply IH].
    destruct (String.prefix sep (String ch rest)); [by eexists _, _ | apply IH].
Qed.

(** Where the separator occurs, [split] gives two pieces at least: the
    index 1 that the report reads exists. *)
Lemma split_from_two sep cur s :
  String.prefix sep EmptyString = false -> str_in sep s = true ->
  exists a b l, split_from sep 0 cur s = a :: b :: l.
Proof.
  intros Hsep. revert cur. induction s as [|ch rest IH]; intros cur Hin.
  - change (str_in sep EmptyString)
      with (String.prefix sep EmptyString || false) in Hin.
    by rewrite Hsep in Hin.
  - change (str_in sep (String ch rest))
      with (String.prefix sep (String ch rest) || str_in sep rest) in Hin.
    change (split_from sep 0 cur (String ch rest))
      with (if String.prefix sep (String ch rest)
            then cur :: split_from sep (String.length sep - 1) EmptyString rest
            else split_from sep 0 (cur +:+ String ch EmptyString) rest).
    destruct (String.prefix sep (String ch rest)).
    + destruct (split_from_cons sep (String.length sep - 1) EmptyString rest)
        as (x & l & ->). by eexists _, _, _.
    + apply IH. done.
Qed.

Lemma sector_of_split description :
  str_in " - " description = true ->
  exists sector, str_split " - " description !! 1 = Some sector.
Proof.
  intros Hin.
  destruct (split_from_two " - " EmptyString description eq_refl Hin)
    as (a & b & l & Hsplit).
  unfold str_split. rewrite Hsplit. by exists b.
Qed.

Lemma group_of_dict_append t sector symbol sectors :
  group_of t (dict_append sector symbol sectors) =
  if String.eqb sector t then group_of t sectors ++ [symbol]
  else group_of t sectors.
Proof.
  induction sectors as [|[t' symbols] rest IH]; simpl.
  - by destruct (String.eqb sector t).
  - destruct (String.eqb_spec t' sector) as [->|Hne]; simpl.
    + by destruct (String.eqb sector t).
    + destruct (String.eqb_spec t' t) as [->|Hne'].
      * destruct (String.eqb_spec sector t) as [->|]; done.
      * done.
Qed.

Lemma dict_append_keys sector symbol sectors :
  (dict_append sector symbol sectors).*1 =
  if decide (sector ∈ sectors.*1) then sectors.*1 else sectors.*1 ++ [sector].
Proof.
  induction sectors as [|[t symbols] rest IH].
  - case_decide as Hin; [|reflexivity].
    rewrite fmap_nil in Hin. by apply elem_of_nil in Hin.
  - cbn [dict_append]. destruct (String.eqb_spec t sector) as [->|Hne].
    + rewrite decide_True; [reflexivity|]. rewrite fmap_cons. by left.
    + rewrite !fmap_cons, IH. cbn [fst].
      destruct (decide (sector ∈ rest.*1)) as [Hin|Hin].
      * rewrite decide_True; [done | by right].
      * rewrite decide_False; [done|].
        rewrite not_elem_of_cons. split; [congruence | done].
Qed.

Lemma dict_append_wf sector symbol sectors :
  wf_sectors sectors -> wf_sectors (dict_append sector symbol sectors).
Proof.
  intros [Hnd Hne]. split.
  - rewrite dict_append_keys. destruct (decide _) as [Hin|Hin]; [done|].
    apply NoDup_app. split; [done|]. split; [|apply NoDup_singleton].
    intros x Hx Hx'. apply list_elem_of_singleton in Hx' as ->. done.
  - clear Hnd. induction sectors as [|[t symbols] rest IH]; simpl.
    + constructor; [done | constructor].
    + apply Forall_cons in Hne as [Ht Hrest].
      destruct (String.eqb t sector); constructor; simpl.
      * by destruct symbols.
      * done.
      * done.
      * by apply IH.
Qed.

Lemma members_cons t symbol description stocks :
  members t ((symbol, description) :: stocks) =
  if decide (sector_of description = Some t)
  then symbol :: members t stocks else members t stocks.
Proof.
  unfold members. rewrite filter_cons. simpl.
  by destruct (decide (sector_of description = Some t)).
Qed.

Lemma build_sectors_groups items :
  forall sectors,
    exists sectors',
      build_sectors items sectors = inr sectors' /\
      (forall t, group_of t sectors' = group_of t sectors ++ members t items) /\
      (wf_sectors sectors -> wf_sectors sectors').
Proof.
  induction items as [|[symbol description] rest IH]; intros sectors.
  { exists sectors. split; [done|]. split; [|done].
    intros t. by rewrite app_nil_r. }
  simpl. destruct (str_in " - " description) eqn:Hin.
  - destruct (sector_of_split description Hin) as [sector Hsec].
    rewrite Hsec.
    destruct (IH (dict_append sector symbol sectors))
      as (sectors' & Hb & Hg & Hwf).
    exists sectors'. split; [done|]. split.
    + intros t. rewrite Hg, group_of_dict_append, members_cons.
      unfold sector_of. rewrite Hin, Hsec.
      destruct (String.eqb_spec sector t) as [->|Hne].
      * rewrite decide_True by done. by rewrite <- app_assoc.
      * rewrite decide_False; [done | congruence].
    + intros Hw. by apply Hwf, dict_append_wf.
  - destruct (IH sectors) as (sectors' & Hb & Hg & Hwf).
    exists sectors'. split; [done|]. split; [|done].
    intros t. rewrite Hg, members_cons. unfold sector_of. rewrite Hin.
    by rewrite decide_False.
Qed.

Lemma group_of_entry t symbols sectors :
  wf_sectors sectors -> (t, symbols) ∈ sectors ->
  group_of t sectors = symbols.
Proof.
  intros [Hnd _]. induction sectors as [|[t' symbols'] rest IH];
    intros Hin; [by apply elem_of_nil in Hin|].
  simpl in Hnd. apply NoDup_cons in Hnd as [Hfresh Hnd]. simpl.
  apply elem_of_cons in Hin as [[= <- <-] | Hin].
  - by rewrite String.eqb_refl.
  - destruct (String.eqb_spec t' t) as [->|Hne]; [|by apply IH].
    exfalso. apply Hfresh. apply list_elem_of_fmap. by exists (t, symbols).
Qed.

Lemma group_of_elem t sectors :
  group_of t sectors <> [] -> (t, group_of t sectors) ∈ sectors.
Proof.
  induction sectors as [|[t' symbols] rest IH]; simpl; [done|].
  destruct (String.eqb_spec t' t) as [->|Hne]; [by left|].
  intros H. right. by apply IH.
Qed.

Lemma sector_scores_inl results symbols e :
  sector_scores results symbols = inl e ->
  exists s, e = KeyError s /\ s ∈ symbols /\ results !! s = None.
Proof.
  induction symbols as [|symbol rest IH]; simpl; [done|].
  destruct (results !! symbol) as [a|] eqn:Ha.
  - destruct (sector_scores results rest) as [e'|scores]; [|done].
    intros [= <-]. destruct (IH eq_refl) as (s & -> & Hs & Hnone).
    exists s. split; [done|]. split; [by right | done].
  - intros [= <-]. exists symbol. split; [done|]. split; [by left | done].
Qed.

Lemma sector_scores_raises results symbols s :
  s ∈ symbols -> results !! s = None ->
  exists e, sector_scores results symbols = inl e.
Proof.
  intros Hs Hnone. induction symbols as [|symbol rest IH];
    [by apply elem_of_nil in Hs|].
  simpl. destruct (results !! symbol) as [a|] eqn:Ha; [|by eexists].
  apply elem_of_cons in Hs as [-> | Hs]; [congruence|].
  destruct (IH Hs) as [e ->]. by eexists.
Qed.

Lemma sector_scores_inr results symbols scores :
  sector_scores results symbols = inr scores ->
  length scores = length symbols /\
  Forall (fun z => exists sym a, results !! sym = Some a /\ z = score a)
    scores.
Proof.
  revert scores. induction symbols as [|symbol rest IH]; intros scores; simpl.
  - intros [= <-]. by split.
  - destruct (results !! symbol) as [a|] eqn:Ha; [|done].
    destruct (sector_scores results rest) as [e|scores']; [done|].
    intros [= <-]. destruct (IH scores' eq_refl) as [Hlen Hall].
    split; [simpl; lia|]. constructor; [by exists symbol, a | done].
Qed.

Lemma average_range scores :
  scores <> [] -> Forall (fun z => (-3 <= z <= 3)%Z) scores ->
  (-3 <= average scores)%Q /\ (average scores <= 3)%Q.
Proof.
  intros Hne Hall.
  assert (Hsum : (-3 * Z.of_nat (length scores)
                  <= foldr Z.add 0 scores
                  <= 3 * Z.of_nat (length scores))%Z).
  { clear Hne. induction Hall as [|z zs Hz _ IH]; simpl; lia. }
  assert (Hn : (0 < Z.of_nat (length scores))%Z).
  { destruct scores; [done | simpl; lia]. }
  unfold average. set (n := Z.of_nat _) in *. set (s := foldr _ _ _) in *.
  assert (Hq : (0 < inject_Z n)%Q) by (unfold Qlt; simpl; lia).
  split.
  - apply Qle_shift_div_l; [done|].
    change (-3)%Q with (inject_Z (-3)).
    rewrite <- inject_Z_mult, <- Zle_Qle. lia.
  - apply Qle_shift_div_r; [done|].
    change 3%Q with (inject_Z 3).
    rewrite <- inject_Z_mult, <- Zle_Qle. lia.
Qed.

Lemma sector_lines_inl results sectors e :
  sector_lines results sectors = inl e ->
  exists t symbols s,
    (t, symbols) ∈ sectors /\ 1 < length symbols /\ s ∈ symbols /\
    results !! s = None /\ e = KeyError s.
Proof.
  induction sectors as [|[t symbols] rest IH]; simpl; [done|].
  destruct (Nat.ltb_spec 1 (length symbols)) as [Hlen|Hlen].
  - destruct (sector_scores results symbols) as [e'|scores] eqn:Hsc.
    + intros [= <-]. apply sector_scores_inl in Hsc as (s & -> & Hs & Hnone).
      exists t, symbols, s. repeat split; try done. by left.
    + destruct (sector_lines results rest) as [e'|out]; [|done].
      intros [= <-]. destruct (IH eq_refl) as (t' & syms & s & Hin & H').
      exists t', syms, s. split; [by right | done].
  - intros He. destruct (IH He) as (t' & syms & s & Hin & H').
    exists t', syms, s. split; [by right | done].
Qed.

Lemma sector_lines_raises results sectors t symbols s :
  (t, symbols) ∈ sectors -> 1 < length symbols -> s ∈ symbols ->
  results !! s = None ->
  exists e, sector_lines results sectors = inl e.
Proof.
  intros Hin Hlen Hs Hnone.
  induction sectors as [|[t' symbols'] rest IH];
    [by apply elem_of_nil in Hin|].
  simpl. apply elem_of_cons in Hin as [[= <- <-] | Hin].
  - apply Nat.ltb_lt in Hlen. rewrite Hlen.
    destruct (sector_scores_raises results symbols s Hs Hnone) as [e ->].
    by eexists.
  - destruct (IH Hin) as [e He]. rewrite He.
    destruct (1 <? length symbols'); [|by eexists].
    destruct (sector_scores results symbols'); by eexists.
Qed.

Lemma sector_lines_inr results sectors out :
  sector_lines results sectors = inr out ->
  forall t avg symbols, (t, avg, symbols) ∈ out ->
    (t, symbols) ∈ sectors /\ 1 < length symbols /\
    exists scores, sector_scores results symbols = inr scores /\
                   avg = average scores.
Proof.
  revert out. induction sectors as [|[t' symbols'] rest IH];
    intros out; simpl.
  { intros [= <-] t avg symbols Hin. by apply elem_of_nil in Hin. }
  destruct (Nat.ltb_spec 1 (length symbols')) as [Hlen|Hlen].
  - destruct (sector_scores results symbols') as [e|scores] eqn:Hsc; [done|].
    destruct (sector_lines results rest) as [e|out'] eqn:Hrest; [done|].
    intros [= <-] t avg symbols Hin.
    apply elem_of_cons in Hin as [[= -> -> ->] | Hin].
    + split; [by left|]. split; [done|]. by exists scores.
    + destruct (IH out' eq_refl t avg symbols Hin) as (H1 & H2 & H3).
      split; [by right | done].
  - intros Hout t avg symbols Hin.
    destruct (IH out Hout t avg symbols Hin) as (H1 & H2 & H3).
    split; [by right | done].
Qed.

Lemma build_sectors_members stocks :
  exists sectors,
    build_sectors stocks [] = inr sectors /\ wf_sectors sectors /\
    forall t, group_of t sectors = members t stocks.
Proof.
  destruct (build_sectors_groups stocks []) as (sectors & Hb & Hg & Hwf).
  exists sectors. split; [done|]. split; [|done].
  apply Hwf. split; [constructor | constructor].
Qed.

(** X21: the sector section of the report never fails on the descriptions
    (the index 1 of [split] exists wherever [" - "] occurs), and it raises
    KeyError exactly when a sector with more than one symbol has a symbol
    without an analysis result, which is then the missing key; when it
    does not fail, every sector it prints has the symbols of that sector
    in [self.stocks], more than one, and an average score within [-3, 3]
    as soon as the scores are. *)
Theorem sector_section_spec (stocks : list (string * string))
    (analysis_results : gmap string Analysis) :
  sector_section stocks analysis_results <> inl IndexError /\
  (forall s, sector_section stocks analysis_results = inl (KeyError s) ->
     analysis_results !! s = None /\
     exists t, s ∈ members t stocks /\ 1 < length (members t stocks)) /\
  (forall t s,
     s ∈ members t stocks -> 1 < length (members t stocks) ->
     analysis_results !! s = None ->
     exists s', sector_section stocks analysis_results = inl (KeyError s')) /\
  (forall out, sector_section stocks analysis_results = inr out ->
     (forall sym a, analysis_results !! sym = Some a ->
                    (-3 <= score a <= 3)%Z) ->
     forall t avg symbols, (t, avg, symbols) ∈ out ->
       symbols = members t stocks /\ 1 < length symbols /\
       (-3 <= avg)%Q /\ (avg <= 3)%Q).
Proof.
  unfold sector_section.
  destruct (build_sectors_members stocks) as (sectors & -> & Hwf & Hg).
  split; [|split; [|split]].
  - intros He. by apply sector_lines_inl in He as (? & ? & ? & _ & _ & _ & _ & ?).
  - intros s He.
    apply sector_lines_inl in He
      as (t & symbols & s' & Hin & Hlen & Hs & Hnone & [= ->]).
    split; [done|]. exists t.
    by rewrite <- Hg, (group_of_entry t symbols sectors Hwf Hin).
  - intros t s Hs Hlen Hnone.
    assert (Hin : (t, members t stocks) ∈ sectors).
    { rewrite <- Hg. apply group_of_elem. rewrite Hg.
      intros E. rewrite E in Hlen. simpl in Hlen. lia. }
    destruct (sector_lines_raises _ _ _ _ _ Hin Hlen Hs Hnone) as [e He].
    pose proof He as He'.
    apply sector_lines_inl in He' as (_ & _ & s' & _ & _ & _ & _ & ->).
    by exists s'.
  - intros out Hout Hrange t avg symbols Hin.
    destruct (sector_lines_inr _ _ _ Hout t avg symbols Hin)
      as (Hentry & Hlen & scores & Hsc & ->).
    split; [by rewrite <- Hg, (group_of_entry t symbols sectors Hwf Hentry)|].
    split; [done|].
    apply sector_scores_inr in Hsc as [Hl Hall].
    apply average_range.
    + intros E. rewrite E in Hl. simpl in Hl. lia.
    + eapply Forall_impl; [exact Hall|].
      intros z (sym & a & Ha & ->). by apply (Hrange sym).
Qed.

Lemma sector_section_spec_witness :
  exists s',
    sector_section two_tech {[ "AAPL" := analyze_latest all_nan_row ]}
    = inl (KeyError s').
Proof.
  destruct (sector_section_spec two_tech
              {[ "AAPL" := analyze_latest all_nan_row ]}) as (_ & _ & H & _).
  apply (H "Technology" "MSFT").
  - assert (E : members "Technology" two_tech = ["AAPL"; "MSFT"])
      by reflexivity.
    rewrite E. right. by left.
  - assert (E : members "Technology" two_tech = ["AAPL"; "MSFT"])
      by reflexivity.
    rewrite E. simpl. lia.
  - reflexivity.
Defined.
